(** * Debt calculator: the schedule engine [computeSchedule]

    Shallow embedding of [src/calculator/calculator.tsx], lines 4-47: the
    [Row] type and the function [computeSchedule]; and of the state and the
    handlers of the component [Calculator], lines 49-108.

    Numbers.  The source computes on JavaScript numbers and the
    specification speaks of reals.  Amounts and rates are modelled as
    rationals [Q] with exact arithmetic, so every definition below can be
    evaluated; comparison of amounts is numeric equality [==].  Month numbers
    and array indices are naturals.

    JavaScript numbers are binary64 floats, so the source rounds where [Q]
    does not: in [startDebt - paymentApplied], in [startDebt * monthlyRate]
    and in the running sum of the interest.  The theorems on the exact model
    are therefore of two kinds: those whose conclusion does not depend on the
    rounding (comparisons, [min], [max], [x - 0], [x - x], which of the rows
    exist), stated for all inputs; and those that need exact subtraction,
    stated for amounts that are integers of magnitude at most 2^53 - 1
    ([safe_integer]), on which binary64 subtraction is exact.  The module
    [Binary64] transliterates the same lines onto primitive floats; it is
    used where the rounding itself is the subject. *)

From Stdlib Require Import QArith Qminmax Lqa List Lia Bool Arith.
Import ListNotations.
Open Scope Q_scope.

(** ** Data model *)

(** [type Row = {month, startDebt, interest, paymentPlanned, paymentApplied,
    endDebt}]. *)
Record Row : Type := mkRow {
  month : nat;
  startDebt : Q;
  interest : Q;
  paymentPlanned : Q;
  paymentApplied : Q;
  endDebt : Q
}.

(** The object returned by [computeSchedule]; [payoffMonth : number | null]. *)
Record ScheduleResult : Type := mkResult {
  schedule : list Row;
  totalInterest : Q;
  payoffMonth : option nat;
  remainingDebt : Q
}.

(** ** Primitive operations of the source *)

(** [Math.min] and [Math.max] on two arguments. *)
Module Math.
Definition min (x y : Q) : Q := Qmin x y.
Definition max (x y : Q) : Q := Qmax x y.
End Math.

(** [x <= y], [x > y] and [x === y] on numbers. *)
Definition Q_leb (x y : Q) : bool := Qle_bool x y.
Definition Q_gtb (x y : Q) : bool :=
  match x ?= y with Gt => true | _ => false end.
Definition Q_eqb (x y : Q) : bool := Qeq_bool x y.

(** [payoffMonth === null]. *)
Definition is_null {A : Type} (o : option A) : bool :=
  match o with None => true | Some _ => false end.

(** ** The mutable locals of [computeSchedule]

    [let debt], [const schedule] (an array that is only pushed to),
    [let totalInterest], [let payoffMonth]. *)
Module Vars.
Record t : Type := mk {
  debt : Q;
  schedule : list Row;
  totalInterest : Q;
  payoffMonth : option nat
}.
End Vars.

(** The row built at index [i] from the entry [payments_i] and the debt at
    the start of the month (source lines 32-39 and the literal of line 41),
    in exact arithmetic: the product of line 34 and the difference of line 39
    are not rounded here ([Binary64.make_row] rounds them). *)
Definition make_row (monthlyRate : Q) (i : nat) (payments_i : Q) (debt : Q) : Row :=
  let month := (i + 1)%nat in
  let startDebt := debt in
  let interest := startDebt * monthlyRate in
  let paymentPlanned := if Q_gtb payments_i 0 then payments_i else 0 in
  let paymentApplied := Math.min paymentPlanned startDebt in
  let endDebt := Math.max (startDebt - paymentApplied) 0 in
  mkRow month startDebt interest paymentPlanned paymentApplied endDebt.

(** One pass through the loop body after the [break] test (lines 32-43),
    in exact arithmetic: the sum of line 35 is not rounded here. *)
Definition loop_body (monthlyRate : Q) (i : nat) (payments_i : Q) (v : Vars.t)
  : Vars.t :=
  let row := make_row monthlyRate i payments_i (Vars.debt v) in
  let totalInterest := Vars.totalInterest v + interest row in
  let schedule := Vars.schedule v ++ [row] in
  let debt := endDebt row in
  let payoffMonth :=
    if Q_eqb debt 0 && is_null (Vars.payoffMonth v)
    then Some (month row)
    else Vars.payoffMonth v in
  Vars.mk debt schedule totalInterest payoffMonth.

(** [for (let i = 0; i < payments.length; i++) { if (debt <= 0) break; ... }]
    entered at index [i], where [rest] holds [payments[i..]]. *)
Fixpoint for_loop (monthlyRate : Q) (i : nat) (rest : list Q) (v : Vars.t)
  : Vars.t :=
  match rest with
  | [] => v
  | payments_i :: rest' =>
      if Q_leb (Vars.debt v) 0 then v
      else for_loop monthlyRate (S i) rest' (loop_body monthlyRate i payments_i v)
  end.

(** The locals as initialised on lines 25-28. *)
Definition init_vars (total : Q) : Vars.t := Vars.mk total [] 0 None.

(** Line 46: [return {schedule, totalInterest, payoffMonth, remainingDebt: debt}]. *)
Definition result_of (v : Vars.t) : ScheduleResult :=
  mkResult (Vars.schedule v) (Vars.totalInterest v) (Vars.payoffMonth v)
           (Vars.debt v).

Definition computeSchedule (total annualRate : Q) (payments : list Q)
  : ScheduleResult :=
  let monthlyRate := annualRate / 12 in
  result_of (for_loop monthlyRate 0 payments (init_vars total)).


(** ** The loop as a transition system

    The same loop, one iteration per step, on a state that also holds the
    array object [payments] the caller passed in and the loop counter [i].
    The entry read is the indexed read [payments[i]]. *)
Module Machine.

Record State : Type := mkState {
  payments : list Q;
  i : nat;
  vars : Vars.t
}.

(** One iteration: the loop test [i < payments.length] holds, the [break]
    test [debt <= 0] fails, the body runs and [i++] follows. *)
Inductive step (monthlyRate : Q) : State -> State -> Prop :=
| step_iteration : forall s payments_i,
    (i s < length (payments s))%nat ->
    Q_leb (Vars.debt (vars s)) 0 = false ->
    nth_error (payments s) (i s) = Some payments_i ->
    step monthlyRate s
         (mkState (payments s) (S (i s))
                  (loop_body monthlyRate (i s) payments_i (vars s))).

(** The loop is left: the loop test fails or the [break] is taken. *)
Definition exits (s : State) : Prop :=
  (length (payments s) <= i s)%nat \/ Q_leb (Vars.debt (vars s)) 0 = true.

(** [steps monthlyRate n s s']: [n] iterations lead from [s] to [s']. *)
Inductive steps (monthlyRate : Q) : nat -> State -> State -> Prop :=
| steps_done : forall s, steps monthlyRate 0 s s
| steps_next : forall n s s' s'',
    step monthlyRate s s' ->
    steps monthlyRate n s' s'' ->
    steps monthlyRate (S n) s s''.

(** The state on entry to the loop. *)
Definition entry (total : Q) (args_payments : list Q) : State :=
  mkState args_payments 0 (init_vars total).

(** A call [computeSchedule(total, annualRate, args_payments)] returns
    [res] after [n] iterations and leaves the array as [payments_after]. *)
Definition returns (total annualRate : Q) (args_payments : list Q)
           (n : nat) (payments_after : list Q) (res : ScheduleResult) : Prop :=
  exists s,
    steps (annualRate / 12) n (entry total args_payments) s /\
    exits s /\
    payments_after = payments s /\
    res = result_of (vars s).

End Machine.

(** ** Closed forms of the loop, used in the proofs *)

(** The rows pushed by the loop entered at index [i] with debt [d]. *)
Fixpoint rows (monthlyRate : Q) (i : nat) (rest : list Q) (d : Q) : list Row :=
  match rest with
  | [] => []
  | payments_i :: rest' =>
      if Q_leb d 0 then []
      else
        let r := make_row monthlyRate i payments_i d in
        r :: rows monthlyRate (S i) rest' (endDebt r)
  end.

(** The effect on the locals of pushing one row. *)
Definition push_row (v : Vars.t) (r : Row) : Vars.t :=
  Vars.mk (endDebt r)
          (Vars.schedule v ++ [r])
          (Vars.totalInterest v + interest r)
          (if Q_eqb (endDebt r) 0 && is_null (Vars.payoffMonth v)
           then Some (month r) else Vars.payoffMonth v).

(** ** Properties named by the specification *)



(** Every field of the row is non-negative. *)
Definition all_fields_nonneg (r : Row) : Prop :=
  (0 <= month r)%nat /\
  0 <= startDebt r /\ 0 <= interest r /\
  0 <= paymentPlanned r /\ 0 <= paymentApplied r /\ 0 <= endDebt r.

(** A row without its [interest] field. *)
Definition ledger (r : Row) : nat * Q * Q * Q * Q :=
  (month r, startDebt r, paymentPlanned r, paymentApplied r, endDebt r).

(** ** Sums over a schedule and over the planned payments *)

(** The sum of one field over the rows. *)
Definition sum_of (f : Row -> Q) (rs : list Row) : Q :=
  fold_right (fun r acc => f r + acc) 0 rs.

(** The clamp of line 37: [payments[i] > 0 ? payments[i] : 0]. *)
Definition planned (payments_i : Q) : Q :=
  if Q_gtb payments_i 0 then payments_i else 0.

(** The sum of the clamped entries of [payments]. *)
Definition planned_total (payments : list Q) : Q :=
  fold_right (fun p acc => planned p + acc) 0 payments.

(** The row [r] renumbered [n] months later. *)
Definition shift_month (n : nat) (r : Row) : Row :=
  mkRow (month r + n) (startDebt r) (interest r) (paymentPlanned r)
        (paymentApplied r) (endDebt r).

(** ** The form around the engine: strings and arrays

    The component [Calculator] (lines 49-108) keeps three strings and the
    array [payments] as state and edits them through the handlers below.

    A JavaScript string is modelled as its sequence of UTF-16 code units.
    An array is a list of cells; a cell that was never written (a hole, read
    as [undefined]) is [None]. *)

From Stdlib Require Import NArith Qround DecimalN.

Module Js.

Definition JsString : Type := list N.

(** The regular-expression classes [\d], [\w] and [\s] (no [u] or [i] flag). *)
Definition is_digit (c : N) : bool := ((48 <=? c) && (c <=? 57))%N.

Definition is_word (c : N) : bool :=
  is_digit c
  || ((65 <=? c) && (c <=? 90))%N
  || ((97 <=? c) && (c <=? 122))%N
  || (c =? 95)%N.

Definition is_space (c : N) : bool :=
  ((9 <=? c) && (c <=? 13))%N
  || (c =? 32)%N || (c =? 160)%N || (c =? 5760)%N
  || ((8192 <=? c) && (c <=? 8202))%N
  || (c =? 8232)%N || (c =? 8233)%N || (c =? 8239)%N || (c =? 8287)%N
  || (c =? 12288)%N || (c =? 65279)%N.

(** [s.replace(/\s/g, "")] and [s.replace(/\D/g, "")]. *)
Definition remove_spaces (s : JsString) : JsString :=
  filter (fun c => negb (is_space c)) s.

Definition remove_nondigits (s : JsString) : JsString :=
  filter is_digit s.

(** The digits of a decimal numeral as code units, and back.  [uint_of_units]
    is [None] on a string that holds anything but ASCII digits. *)
Fixpoint units_of_uint (u : Decimal.uint) : JsString :=
  match u with
  | Decimal.Nil => []
  | Decimal.D0 u => 48%N :: units_of_uint u
  | Decimal.D1 u => 49%N :: units_of_uint u
  | Decimal.D2 u => 50%N :: units_of_uint u
  | Decimal.D3 u => 51%N :: units_of_uint u
  | Decimal.D4 u => 52%N :: units_of_uint u
  | Decimal.D5 u => 53%N :: units_of_uint u
  | Decimal.D6 u => 54%N :: units_of_uint u
  | Decimal.D7 u => 55%N :: units_of_uint u
  | Decimal.D8 u => 56%N :: units_of_uint u
  | Decimal.D9 u => 57%N :: units_of_uint u
  end.

Fixpoint uint_of_units (s : JsString) : option Decimal.uint :=
  match s with
  | [] => Some Decimal.Nil
  | c :: s' =>
      match uint_of_units s' with
      | None => None
      | Some u =>
          match c with
          | 48%N => Some (Decimal.D0 u)
          | 49%N => Some (Decimal.D1 u)
          | 50%N => Some (Decimal.D2 u)
          | 51%N => Some (Decimal.D3 u)
          | 52%N => Some (Decimal.D4 u)
          | 53%N => Some (Decimal.D5 u)
          | 54%N => Some (Decimal.D6 u)
          | 55%N => Some (Decimal.D7 u)
          | 56%N => Some (Decimal.D8 u)
          | 57%N => Some (Decimal.D9 u)
          | _ => None
          end
      end
  end.

(** [n.toString()] and [String(n)] for a non-negative integer below 10^21:
    its decimal numeral.  From 10^21 on JavaScript prints an exponent form,
    which this definition does not give; it is used below that bound only. *)
Definition toString (n : N) : JsString := units_of_uint (N.to_uint n).

(** [Number(s)] for a string of ASCII digits whose value is at most
    2^53 - 1: the value of the numeral, 0 for the empty string.  Above that
    bound [Number] rounds (and gives [Infinity] from about 309 digits), which
    this definition does not; it is used below the bound only.  Strings with
    other characters are outside this model: [None]. *)
Definition Number_digits (s : JsString) : option N :=
  option_map N.of_uint (uint_of_units s).

(** [Number.MAX_SAFE_INTEGER]. *)
Definition MAX_SAFE_INTEGER : N := 9007199254740991%N.

(** The value [m] that entered the array model, as a number of the engine. *)
Definition number_of_N (n : N) : Q := inject_Z (Z.of_N n).

(** The assignment [a[index] = x] on an array: in range it replaces the
    cell; past the end the array grows to [index + 1] cells and the cells in
    between are holes. *)
Definition array_set {A : Type} (a : list (option A)) (index : nat) (x : A)
  : list (option A) :=
  if (index <? length a)%nat
  then firstn index a ++ Some x :: skipn (S index) a
  else a ++ repeat None (index - length a) ++ [Some x].

(** What [computeSchedule] reads from a cell: it uses an entry only as
    [payments[i] > 0 ? payments[i] : 0], where a hole is not [> 0]. *)
Definition cell_number (c : option Q) : Q :=
  match c with Some q => q | None => 0 end.

End Js.

(** The pattern [/\B(?=(\d{3})+(?!\d))/g] of [formatNumber] and
    [formatMoneyInput], which matches the empty string at some positions. *)
Module GroupPattern.

(** [(\d{3})+(?!\d)] matched against the input that follows a position:
    three digits, and then either no digit follows or the group repeats. *)
Fixpoint lookahead (s : Js.JsString) : bool :=
  match s with
  | c1 :: c2 :: c3 :: s' =>
      Js.is_digit c1 && Js.is_digit c2 && Js.is_digit c3
      && (match s' with
          | [] => true
          | c :: _ => negb (Js.is_digit c)
          end
          || lookahead s')
  | _ => false
  end.

(** [\B]: the characters on the two sides of the position are both word
    characters or both not (the ends of the input count as not). *)
Definition not_boundary (before : option N) (s : Js.JsString) : bool :=
  Bool.eqb
    (match before with Some c => Js.is_word c | None => false end)
    (match s with c :: _ => Js.is_word c | [] => false end).

Definition matches (before : option N) (s : Js.JsString) : bool :=
  not_boundary before s && lookahead s.

(** [.replace(pattern, " ")]: a space is put in at every position where the
    pattern matches; [before] is the character left of the position. *)
Fixpoint replace_with_space (before : option N) (s : Js.JsString)
  : Js.JsString :=
  (if matches before s then [32%N] else [])
  ++ match s with
     | [] => []
     | c :: s' => c :: replace_with_space (Some c) s'
     end.

End GroupPattern.

(** The component's state and handlers. *)
Module Calculator.

(** [useState] of lines 50-53. *)
Record State : Type := mkState {
  total : Js.JsString;
  annualRatePct : Js.JsString;
  months : Js.JsString;
  payments : list (option Q)
}.

(** Lines 62-68. *)
Definition setPaymentAt (index : nat) (value : Q) (st : State) : State :=
  let prev := payments st in
  let next := Js.array_set prev index value in
  mkState (total st) (annualRatePct st) (months st) next.

(** The argument of [setMonthsCount]: [number | null], the number possibly
    [NaN]. *)
Inductive MonthsArg : Type :=
| arg_null
| arg_NaN
| arg_number (n : Q).

(** The updater of lines 79-87.  Growing goes through
    [next.push(...Array.from({length: m - next.length}, () => 0))]:
    [Array.from] throws a RangeError for a length above 2^32 - 1, and the
    call with spread arguments throws a RangeError when there are more
    arguments than the engine accepts.  That bound depends on the engine and
    is the parameter [spread_limit].  [None] is the thrown RangeError. *)
Definition resize (spread_limit : nat) (m : Z) (prev : list (option Q))
  : option (list (option Q)) :=
  let next := prev in
  if (Z.of_nat (length next) <? m)%Z
  then
    let count := (m - Z.of_nat (length next))%Z in
    if (count <=? 4294967295)%Z && (count <=? Z.of_nat spread_limit)%Z
    then Some (next ++ repeat (Some 0) (Z.to_nat count))
    else None
  else if (m <? Z.of_nat (length next))%Z
       then Some (firstn (Z.to_nat m) next)
       else Some next.

(** Lines 70-88.  The result is [None] when the updater throws: no state
    results from the call. *)
Definition setMonthsCount (spread_limit : nat) (n : MonthsArg) (st : State)
  : option State :=
  match n with
  | arg_null | arg_NaN =>
      Some (mkState (total st) (annualRatePct st) [] [])
  | arg_number n =>
      let m := Z.max 1 (Qfloor n) in
      match resize spread_limit m (payments st) with
      | Some next =>
          Some (mkState (total st) (annualRatePct st)
                        (Js.toString (Z.to_N m)) next)
      | None => None
      end
  end.

(** Lines 90-94, on [e.target.value]. *)
Definition handleTotalChange (value : Js.JsString) (st : State) : State :=
  let raw := Js.remove_spaces value in
  let digits := Js.remove_nondigits raw in
  mkState digits (annualRatePct st) (months st) (payments st).

(** Lines 96-99. *)
Definition formatNumber (n : Js.JsString) : Js.JsString :=
  match n with
  | [] => []
  | _ => GroupPattern.replace_with_space None n
  end.

(** Lines 101-104, for the non-negative integers below 10^21 (see
    [Js.toString]); the form puts such integers in [payments]. *)
Definition formatMoneyInput (n : N) : Js.JsString :=
  if (n =? 0)%N then []
  else GroupPattern.replace_with_space None (Js.toString n).

(** Lines 106-108: [Number(...) || 0], for texts whose digits make a number
    of at most 2^53 - 1 (see [Js.Number_digits]). *)
Definition parseMoneyInput (s : Js.JsString) : N :=
  match Js.Number_digits (Js.remove_nondigits (Js.remove_spaces s)) with
  | Some n => if (n =? 0)%N then 0%N else n
  | None => 0%N
  end.

(** The [onChange] of a payment input (line 177). *)
Definition onPaymentChange (index : nat) (value : Js.JsString) (st : State)
  : State :=
  setPaymentAt index (Js.number_of_N (parseMoneyInput value)) st.

End Calculator.

(** The growth asked of [Calculator.resize] is one that [Array.from] and the
    spread call accept. *)
Definition growth_accepted (spread_limit : nat) (m : Z) (prev : list (option Q))
  : Prop :=
  (m - Z.of_nat (length prev) <= 4294967295)%Z /\
  (m - Z.of_nat (length prev) <= Z.of_nat spread_limit)%Z.

(** Digits in groups of three counted from the right, with a space between
    two groups. *)
Fixpoint grouped (s : Js.JsString) : Js.JsString :=
  match s with
  | [] => []
  | c :: s' =>
      c :: (if (0 <? length s')%nat && (length s' mod 3 =? 0)%nat
            then 32%N :: grouped s'
            else grouped s')
  end.

(** ** Amounts on which binary64 subtraction is exact *)

(** An integer of magnitude at most [Number.MAX_SAFE_INTEGER] = 2^53 - 1. *)
Definition safe_integer (q : Q) : Prop :=
  exists z : Z, q == inject_Z z /\ (Z.abs z <= 9007199254740991)%Z.



(** ** The engine on binary64 numbers

    Lines 18-47 again, with the operations of the source on its own number
    type: [+], [-], [*], [/] round to nearest, ties to even; [<=], [>] and
    [===] are the IEEE comparisons. *)

From Stdlib Require Import Floats.

Module Binary64.

Record Row : Type := mkRow {
  month : nat;
  startDebt : float;
  interest : float;
  paymentPlanned : float;
  paymentApplied : float;
  endDebt : float
}.

Record ScheduleResult : Type := mkResult {
  schedule : list Row;
  totalInterest : float;
  payoffMonth : option nat;
  remainingDebt : float
}.

(** [Math.min(x, y)] and [Math.max(x, y)]: [NaN] if an argument is [NaN];
    [-0] counts as smaller than [+0]. *)
Definition Math_min (x y : float) : float :=
  if PrimFloat.is_nan x || PrimFloat.is_nan y then PrimFloat.nan
  else if PrimFloat.ltb x y then x
  else if PrimFloat.ltb y x then y
  else if PrimFloat.get_sign x then x else y.

Definition Math_max (x y : float) : float :=
  if PrimFloat.is_nan x || PrimFloat.is_nan y then PrimFloat.nan
  else if PrimFloat.ltb x y then y
  else if PrimFloat.ltb y x then x
  else if PrimFloat.get_sign x then y else x.

(** The locals [debt], [schedule], [totalInterest], [payoffMonth]. *)
Module Vars.
Record t : Type := mk {
  debt : float;
  schedule : list Row;
  totalInterest : float;
  payoffMonth : option nat
}.
End Vars.

(** Lines 32-39 and the literal of line 41. *)
Definition make_row (monthlyRate : float) (i : nat) (payments_i : float)
           (debt : float) : Row :=
  let month := (i + 1)%nat in
  let startDebt := debt in
  let interest := PrimFloat.mul startDebt monthlyRate in
  let paymentPlanned :=
    if PrimFloat.ltb PrimFloat.zero payments_i then payments_i
    else PrimFloat.zero in
  let paymentApplied := Math_min paymentPlanned startDebt in
  let endDebt :=
    Math_max (PrimFloat.sub startDebt paymentApplied) PrimFloat.zero in
  mkRow month startDebt interest paymentPlanned paymentApplied endDebt.

(** Lines 32-43. *)
Definition loop_body (monthlyRate : float) (i : nat) (payments_i : float)
           (v : Vars.t) : Vars.t :=
  let row := make_row monthlyRate i payments_i (Vars.debt v) in
  let totalInterest := PrimFloat.add (Vars.totalInterest v) (interest row) in
  let schedule := Vars.schedule v ++ [row] in
  let debt := endDebt row in
  let payoffMonth :=
    if PrimFloat.eqb debt PrimFloat.zero && is_null (Vars.payoffMonth v)
    then Some (month row)
    else Vars.payoffMonth v in
  Vars.mk debt schedule totalInterest payoffMonth.

(** Lines 30-44, entered at index [i] with [rest] holding [payments[i..]]. *)
Fixpoint for_loop (monthlyRate : float) (i : nat) (rest : list float)
         (v : Vars.t) : Vars.t :=
  match rest with
  | [] => v
  | payments_i :: rest' =>
      if PrimFloat.leb (Vars.debt v) PrimFloat.zero then v
      else for_loop monthlyRate (S i) rest' (loop_body monthlyRate i payments_i v)
  end.

(** Lines 24-28 and 46. *)
Definition computeSchedule (total annualRate : float) (payments : list float)
  : ScheduleResult :=
  let monthlyRate := PrimFloat.div annualRate 12%float in
  let v := for_loop monthlyRate 0 payments
                    (Vars.mk total [] PrimFloat.zero None) in
  mkResult (Vars.schedule v) (Vars.totalInterest v) (Vars.payoffMonth v)
           (Vars.debt v).


End Binary64.

(** * Proofs *)

(** ** Arithmetic of one row *)

Lemma Q_leb_false (x : Q) : Q_leb x 0 = false -> 0 < x.
Proof.
  unfold Q_leb. intros H. apply Qnot_le_lt. intros Hle.
  apply Qle_bool_iff in Hle. congruence.
Qed.

Lemma planned_nonneg (p : Q) : 0 <= (if Q_gtb p 0 then p else 0).
Proof.
  unfold Q_gtb. destruct (Qcompare_spec p 0); lra.
Qed.

Lemma make_row_month mr i p d : month (make_row mr i p d) = (i + 1)%nat.
Proof. reflexivity. Qed.

Lemma make_row_startDebt mr i p d : startDebt (make_row mr i p d) = d.
Proof. reflexivity. Qed.

Lemma make_row_bounds mr i p d :
  0 < d ->
  let r := make_row mr i p d in
  0 <= paymentPlanned r /\
  0 <= paymentApplied r /\ paymentApplied r <= d /\
  0 <= endDebt r /\ endDebt r <= d /\
  endDebt r == d - paymentApplied r.
Proof.
  intros Hd. cbn -[Qmin Qmax Qminus]. unfold Math.min, Math.max.
  pose proof (planned_nonneg p) as Hp.
  set (pp := if Q_gtb p 0 then p else 0) in *.
  destruct (Q.min_spec pp d) as [[? Hm] | [? Hm]];
    destruct (Q.max_spec (d - Qmin pp d) 0) as [[? HM] | [? HM]];
    rewrite ?HM, ?Hm in *; repeat split; try lra.
Qed.

(** ** The loop in closed form *)

Lemma loop_body_push mr i p v :
  loop_body mr i p v = push_row v (make_row mr i p (Vars.debt v)).
Proof. reflexivity. Qed.

Lemma for_loop_rows mr rest : forall i v,
  for_loop mr i rest v = fold_left push_row (rows mr i rest (Vars.debt v)) v.
Proof.
  induction rest as [| p rest IH]; intros i v; simpl; [reflexivity |].
  destruct (Q_leb (Vars.debt v) 0); simpl; [reflexivity |].
  rewrite IH. reflexivity.
Qed.

Lemma push_rows_schedule rs : forall v,
  Vars.schedule (fold_left push_row rs v) = Vars.schedule v ++ rs.
Proof.
  induction rs as [| r rs IH]; intros v; simpl.
  - now rewrite app_nil_r.
  - rewrite IH. simpl. now rewrite <- app_assoc.
Qed.

Lemma last_cons {A : Type} (l : list A) : forall x d,
  last (x :: l) d = last l x.
Proof.
  induction l as [| y l IH]; intros x d; [reflexivity |].
  change (last (x :: y :: l) d) with (last (y :: l) d).
  now rewrite !IH.
Qed.

Lemma push_rows_debt rs : forall v,
  Vars.debt (fold_left push_row rs v) = last (map endDebt rs) (Vars.debt v).
Proof.
  induction rs as [| r rs IH]; intros v; [reflexivity |].
  cbn [fold_left map]. rewrite IH, last_cons. reflexivity.
Qed.

Lemma schedule_rows total annualRate payments :
  schedule (computeSchedule total annualRate payments)
  = rows (annualRate / 12) 0 payments total.
Proof.
  unfold computeSchedule. rewrite for_loop_rows. cbn [result_of schedule].
  now rewrite push_rows_schedule.
Qed.

Lemma rows_nonpos mr i rest d : d <= 0 -> rows mr i rest d = [].
Proof.
  intros Hd. destruct rest as [| p rest]; [reflexivity |]. simpl.
  unfold Q_leb. apply Qle_bool_iff in Hd. now rewrite Hd.
Qed.

Lemma rows_Forall (P : Row -> Prop) mr :
  (forall i p d, 0 < d -> P (make_row mr i p d)) ->
  forall rest i d, Forall P (rows mr i rest d).
Proof.
  intros HP. induction rest as [| p rest IH]; intros i d; simpl; [constructor |].
  destruct (Q_leb d 0) eqn:Hd; constructor.
  - apply HP. now apply Q_leb_false.
  - apply IH.
Qed.

Lemma rows_length mr rest : forall i d,
  (length (rows mr i rest d) <= length rest)%nat.
Proof.
  induction rest as [| p rest IH]; intros i d; simpl; [lia |].
  destruct (Q_leb d 0); simpl; [lia |].
  apply le_n_S, IH.
Qed.


(** The row at position [k] is built from [payments[i+k]], has month
    [i+k+1], and starts from a positive debt. *)
Lemma rows_nth mr rest : forall i d k r,
  nth_error (rows mr i rest d) k = Some r ->
  exists p sd,
    nth_error rest k = Some p /\
    r = make_row mr (i + k) p sd /\
    0 < sd.
Proof.
  induction rest as [| p rest IH]; intros i d k r; simpl.
  - destruct k; discriminate.
  - destruct (Q_leb d 0) eqn:Hd; [destruct k; discriminate |].
    destruct k as [| k]; simpl.
    + intros H. injection H as <-. exists p, d.
      rewrite Nat.add_0_r. auto using Q_leb_false.
    + intros H. apply IH in H. destruct H as (q & sd & Hq & Hr & Hpos).
      exists q, sd. replace (i + S k)%nat with (S i + k)%nat by lia. auto.
Qed.


(** ** The payoff month *)

Lemma rows_payoff mr rest : forall i d v r,
  Vars.payoffMonth v = None ->
  In r (rows mr i rest d) ->
  endDebt r == 0 ->
  Vars.payoffMonth (fold_left push_row (rows mr i rest d) v) = Some (month r).
Proof.
  induction rest as [| p rest IH]; intros i d v r Hv; cbn [rows];
    [contradiction |].
  destruct (Q_leb d 0) eqn:Hd; [contradiction |].
  remember (make_row mr i p d) as r0 eqn:Hr0. intros Hin Hz.
  cbn [fold_left]. destruct (Qeq_bool (endDebt r0) 0) eqn:E.
  - assert (Hz0 : endDebt r0 <= 0).
    { apply Qeq_bool_iff in E. rewrite E. apply Qle_refl. }
    rewrite (rows_nonpos _ _ _ _ Hz0) in *. destruct Hin as [<- | []].
    simpl. unfold Q_eqb. now rewrite E, Hv.
  - destruct Hin as [<- | Hin].
    + apply Qeq_bool_iff in Hz. congruence.
    + apply IH; [| assumption | assumption].
      simpl. unfold Q_eqb. now rewrite E.
Qed.

Lemma payoffMonth_rows total annualRate payments :
  payoffMonth (computeSchedule total annualRate payments)
  = Vars.payoffMonth
      (fold_left push_row (rows (annualRate / 12) 0 payments total)
                 (init_vars total)).
Proof. unfold computeSchedule. now rewrite for_loop_rows. Qed.

Lemma remainingDebt_rows total annualRate payments :
  remainingDebt (computeSchedule total annualRate payments)
  = last (map endDebt (rows (annualRate / 12) 0 payments total)) total.
Proof.
  unfold computeSchedule. rewrite for_loop_rows. cbn [result_of remainingDebt].
  now rewrite push_rows_debt.
Qed.


(** ** The row invariant *)










(** ** Payments of zero *)

Lemma zero_payment_row mr i d :
  0 < d -> endDebt (make_row mr i 0 d) == d.
Proof.
  intros Hd. cbn -[Qmin Qmax Qminus]. unfold Math.min, Math.max.
  destruct (Q.min_spec 0 d) as [[_ Hm] | [? _]]; [| lra].
  destruct (Q.max_spec (d - Qmin 0 d) 0) as [[? HM] | [? HM]];
    rewrite HM, ?Hm in *; lra.
Qed.

Lemma for_loop_zero_payments mr n : forall i v,
  Vars.payoffMonth v = None ->
  Vars.debt (for_loop mr i (repeat 0 n) v) == Vars.debt v /\
  Vars.payoffMonth (for_loop mr i (repeat 0 n) v) = None.
Proof.
  induction n as [| n IH]; intros i v Hv; cbn [repeat for_loop].
  - split; [reflexivity | assumption].
  - destruct (Q_leb (Vars.debt v) 0) eqn:Hd; [split; [reflexivity | assumption] |].
    apply Q_leb_false in Hd.
    pose proof (zero_payment_row mr i _ Hd) as Hrow.
    destruct (IH (S i) (loop_body mr i 0 v)) as [Hdebt Hpay].
    + rewrite loop_body_push. cbn [push_row Vars.payoffMonth].
      unfold Q_eqb. destruct (Qeq_bool _ 0) eqn:E; [| assumption].
      apply Qeq_bool_iff in E. lra.
    + split; [| assumption]. rewrite Hdebt, loop_body_push. exact Hrow.
Qed.

(** C2, as amended. For every principal >= 0, every annualRate and every
    monthCount, with monthCount payments of zero the remaining debt equals
    the principal (interest is charged but never added to the debt) and
    payoffMonth is absent. *)
Theorem zero_payments_keep_debt (total annualRate : Q) (monthCount : nat) :
  0 <= total ->
  let res := computeSchedule total annualRate (repeat 0 monthCount) in
  remainingDebt res == total /\ payoffMonth res = None.
Proof.
  intros _. unfold computeSchedule. cbn [result_of remainingDebt payoffMonth].
  now apply for_loop_zero_payments.
Qed.

Lemma zero_payments_keep_debt_witness :
  0 <= 100 /\
  let res := computeSchedule 100 12 (repeat 0 1) in
  remainingDebt res == 100 /\ payoffMonth res = None.
Proof.
  split; [lra | apply (zero_payments_keep_debt 100 12 1); lra].
Defined.

(** C2, as stated, fails: with principal 100, annualRate 12 (monthly rate 1)
    and one payment of zero the remaining debt is 100, not
    100 * (1 + 12/12)^1 = 200. *)
Lemma zero_payments_compound_counterexample :
  0 <= 100 /\
  let res := computeSchedule 100 12 (repeat 0 1) in
  remainingDebt res == 100 /\
  ~ remainingDebt res == 100 * (1 + 12 / 12) ^ 1.
Proof.
  split; [lra |]. split.
  - vm_compute. reflexivity.
  - intros H. vm_compute in H. discriminate H.
Qed.

(** ** The scenario of the specification *)

(** C3, as amended. With principal 1200, annualRate 0.12 and twelve payments
    of 112, the first row has startDebt 1200, interest 12, paymentApplied 112
    and endDebt 1088. *)
Theorem scenario_first_row :
  exists r,
    hd_error (schedule (computeSchedule 1200 0.12 (repeat 112 12))) = Some r /\
    startDebt r == 1200 /\ interest r == 12 /\
    paymentApplied r == 112 /\ endDebt r == 1088.
Proof.
  eexists. split; [vm_compute; reflexivity |].
  repeat split; vm_compute; reflexivity.
Qed.

(** C3, as stated, fails: the first row's endDebt is not 1100. *)
Lemma scenario_first_row_counterexample :
  ~ (exists r,
        hd_error (schedule (computeSchedule 1200 0.12 (repeat 112 12))) = Some r /\
        startDebt r == 1200 /\ interest r == 12 /\
        paymentApplied r == 112 /\ endDebt r == 1100).
Proof.
  intros (r & Hr & _ & _ & _ & He).
  vm_compute in Hr. injection Hr as <-.
  vm_compute in He. discriminate He.
Qed.

(** ** Empty payments *)

(** C7. For every principal and annualRate, an empty payments sequence gives
    an empty schedule, totalInterest 0, no payoffMonth and
    remainingDebt = principal. *)
Theorem empty_payments (total annualRate : Q) :
  computeSchedule total annualRate [] = mkResult [] 0 None total.
Proof. reflexivity. Qed.

(** ** Signs of the fields *)

Lemma interest_nonneg mr i p d :
  0 < d -> 0 <= mr -> 0 <= interest (make_row mr i p d).
Proof.
  intros Hd Hmr. cbn [make_row interest].
  apply Qmult_le_0_compat; [lra | assumption].
Qed.

Lemma monthlyRate_nonneg (annualRate : Q) : 0 <= annualRate -> 0 <= annualRate / 12.
Proof.
  intros H. unfold Qdiv. apply Qmult_le_0_compat; [assumption |].
  apply Qinv_le_0_compat. lra.
Qed.

(** C4, as amended. For every principal >= 0, every annualRate and every
    payments sequence, every row has month >= 1 and non-negative startDebt,
    paymentPlanned, paymentApplied and endDebt; its interest is non-negative
    when annualRate >= 0. *)
Theorem fields_nonneg (total annualRate : Q) (payments : list Q) :
  0 <= total ->
  Forall (fun r =>
            (1 <= month r)%nat /\
            0 <= startDebt r /\ 0 <= paymentPlanned r /\
            0 <= paymentApplied r /\ 0 <= endDebt r /\
            (0 <= annualRate -> 0 <= interest r))
         (schedule (computeSchedule total annualRate payments)).
Proof.
  intros _. rewrite schedule_rows. apply rows_Forall. intros i p d Hd.
  destruct (make_row_bounds (annualRate / 12) i p d Hd)
    as (Hpp & Hpa & _ & He & _ & _).
  rewrite make_row_month, make_row_startDebt.
  repeat split; try assumption; try lia; try lra.
  intros Ha. apply interest_nonneg; [assumption |].
  now apply monthlyRate_nonneg.
Qed.

Lemma fields_nonneg_witness :
  0 <= 100 /\
  Forall (fun r =>
            (1 <= month r)%nat /\
            0 <= startDebt r /\ 0 <= paymentPlanned r /\
            0 <= paymentApplied r /\ 0 <= endDebt r /\
            (0 <= 0.12 -> 0 <= interest r))
         (schedule (computeSchedule 100 0.12 [50; 70])).
Proof.
  split; [lra | apply (fields_nonneg 100 0.12 [50; 70]); lra].
Defined.

(** C4, as stated, fails: with principal 100, annualRate -12 and one payment
    of zero, the only row has interest -100. *)
Lemma fields_nonneg_counterexample :
  0 <= 100 /\
  ~ Forall all_fields_nonneg (schedule (computeSchedule 100 (-12) [0])).
Proof.
  split; [lra |]. intros H. inversion H as [| r rs Hr _]; subst.
  destruct Hr as (_ & _ & Hi & _). vm_compute in Hi. apply Hi. reflexivity.
Qed.

(** ** Paying the debt off *)

Lemma full_payment_row mr i p d :
  0 < d ->
  let r := make_row mr i p d in
  d <= paymentPlanned r ->
  paymentApplied r == d /\ endDebt r == 0.
Proof.
  intros Hd r Hle.
  destruct (make_row_bounds mr i p d Hd) as (_ & _ & _ & _ & _ & He).
  fold r in He.
  assert (Hpa : paymentApplied r == d).
  { subst r. cbn [make_row paymentApplied paymentPlanned] in *.
    unfold Math.min.
    destruct (Q.min_spec (if Q_gtb p 0 then p else 0) d) as [[? Hm] | [? Hm]];
      rewrite Hm; lra. }
  split; [assumption | lra].
Qed.

(** C5. If in some row the clamped payment is at least the row's startDebt,
    with startDebt > 0, then that row's paymentApplied equals its startDebt
    and the returned payoffMonth is that row's month. *)
Theorem payoff_on_full_payment (total annualRate : Q) (payments : list Q) (r : Row) :
  In r (schedule (computeSchedule total annualRate payments)) ->
  0 < startDebt r ->
  startDebt r <= paymentPlanned r ->
  paymentApplied r == startDebt r /\
  payoffMonth (computeSchedule total annualRate payments) = Some (month r).
Proof.
  rewrite schedule_rows, payoffMonth_rows. intros Hin _ Hle.
  destruct (In_nth_error _ _ Hin) as [k Hk].
  destruct (rows_nth _ _ _ _ _ _ Hk) as (p & sd & _ & Hr & Hsd).
  assert (Hfull : paymentApplied r == sd /\ endDebt r == 0).
  { rewrite Hr in Hle |- *. now apply full_payment_row. }
  destruct Hfull as [Hpa Hz]. split.
  - rewrite Hpa, Hr. reflexivity.
  - now apply rows_payoff.
Qed.

Lemma payoff_on_full_payment_witness :
  let r := make_row (0 / 12) 1 70 50 in
  In r (schedule (computeSchedule 100 0 [50; 70; 30])) /\
  0 < startDebt r /\
  startDebt r <= paymentPlanned r /\
  paymentApplied r == startDebt r /\
  payoffMonth (computeSchedule 100 0 [50; 70; 30]) = Some (month r).
Proof.
  intros r.
  assert (Hin : In r (schedule (computeSchedule 100 0 [50; 70; 30])))
    by (right; left; reflexivity).
  assert (Hpos : 0 < startDebt r) by reflexivity.
  assert (Hle : startDebt r <= paymentPlanned r) by (vm_compute; discriminate).
  split; [assumption |]. split; [assumption |]. split; [assumption |].
  exact (payoff_on_full_payment 100 0 [50; 70; 30] r Hin Hpos Hle).
Defined.

(** ** Negative payments *)

Lemma negative_payment_row mr i p d :
  0 < d -> p < 0 ->
  let r := make_row mr i p d in
  paymentPlanned r = 0 /\ paymentApplied r == 0 /\ endDebt r == d.
Proof.
  intros Hd Hp.
  assert (Hg : Q_gtb p 0 = false).
  { unfold Q_gtb. destruct (Qcompare_spec p 0); try reflexivity. lra. }
  cbn -[Qmin Qmax Qminus]. rewrite Hg. unfold Math.min, Math.max.
  destruct (Q.min_spec 0 d) as [[_ Hm] | [? _]]; [| lra].
  destruct (Q.max_spec (d - Qmin 0 d) 0) as [[? HM] | [? HM]];
    rewrite HM, ?Hm in *; repeat split; try lra; assumption.
Qed.

(** C6. If payments[i] < 0, the row for that month (month i+1) has
    paymentPlanned = 0 and paymentApplied = 0, hence endDebt = startDebt; and
    in every row the debt does not drop below zero and no more is applied
    than is owed. *)
Theorem negative_payment_is_clamped (total annualRate : Q) (payments : list Q) :
  let res := computeSchedule total annualRate payments in
  (forall i p r,
      nth_error payments i = Some p ->
      p < 0 ->
      nth_error (schedule res) i = Some r ->
      month r = (i + 1)%nat /\
      paymentPlanned r == 0 /\ paymentApplied r == 0 /\
      endDebt r == startDebt r) /\
  Forall (fun r => 0 <= endDebt r /\ paymentApplied r <= startDebt r)
         (schedule res).
Proof.
  intros res. subst res. rewrite schedule_rows. split.
  - intros i p r Hp Hneg Hr.
    destruct (rows_nth _ _ _ _ _ _ Hr) as (q & sd & Hq & -> & Hsd).
    assert (q = p) by congruence. subst q.
    destruct (negative_payment_row (annualRate / 12) (0 + i) p sd Hsd Hneg)
      as (Hpp & Hpa & He).
    rewrite make_row_month, make_row_startDebt, Hpp.
    repeat split; try assumption; reflexivity.
  - apply rows_Forall. intros i p d Hd.
    destruct (make_row_bounds (annualRate / 12) i p d Hd)
      as (_ & _ & Hpa & He & _ & _).
    rewrite make_row_startDebt. split; assumption.
Qed.

Lemma negative_payment_is_clamped_witness :
  let res := computeSchedule 100 12 [30; -5; 200] in
  let r := make_row (12 / 12) 1 (-5) 70 in
  nth_error [30; -5; 200] 1 = Some (-5) /\
  -5 < 0 /\
  nth_error (schedule res) 1 = Some r /\
  month r = 2%nat /\
  paymentPlanned r == 0 /\ paymentApplied r == 0 /\
  endDebt r == startDebt r.
Proof.
  intros res r.
  assert (Hp : nth_error [30; -5; 200] 1 = Some (-5)) by reflexivity.
  assert (Hneg : -5 < 0) by reflexivity.
  assert (Hr : nth_error (schedule res) 1 = Some r) by reflexivity.
  split; [assumption |]. split; [assumption |]. split; [assumption |].
  exact (proj1 (negative_payment_is_clamped 100 12 [30; -5; 200])
               1%nat (-5) r Hp Hneg Hr).
Defined.

(** ** The rate does not touch the balance *)

Lemma rows_ledger mr1 mr2 rest : forall i d,
  map ledger (rows mr1 i rest d) = map ledger (rows mr2 i rest d).
Proof.
  induction rest as [| p rest IH]; intros i d; cbn [rows]; [reflexivity |].
  destruct (Q_leb d 0); [reflexivity |]. cbn [map]. f_equal. apply IH.
Qed.

Lemma push_rows_payoff_ledger rs1 : forall rs2 v1 v2,
  map ledger rs1 = map ledger rs2 ->
  Vars.payoffMonth v1 = Vars.payoffMonth v2 ->
  Vars.payoffMonth (fold_left push_row rs1 v1)
  = Vars.payoffMonth (fold_left push_row rs2 v2).
Proof.
  induction rs1 as [| r1 rs1 IH]; intros [| r2 rs2] v1 v2 Hmap Hv;
    try discriminate; [assumption |].
  cbn [map] in Hmap. unfold ledger at 1 3 in Hmap.
  injection Hmap as Hm _ _ _ He Hmap. cbn [fold_left].
  apply IH; [assumption |].
  cbn [push_row Vars.payoffMonth]. now rewrite Hm, He, Hv.
Qed.

Lemma ledger_endDebt rs : map endDebt rs = map snd (map ledger rs).
Proof. rewrite map_map. reflexivity. Qed.

(** C10. For every principal, every payments sequence and every two annual
    rates, the two schedules agree in every row on month, startDebt,
    paymentPlanned, paymentApplied and endDebt (all fields but interest), and
    the two results agree on payoffMonth and remainingDebt. *)
Theorem rate_does_not_affect_balance (total r1 r2 : Q) (payments : list Q) :
  let a := computeSchedule total r1 payments in
  let b := computeSchedule total r2 payments in
  map ledger (schedule a) = map ledger (schedule b) /\
  payoffMonth a = payoffMonth b /\
  remainingDebt a = remainingDebt b.
Proof.
  intros a b. subst a b.
  pose proof (rows_ledger (r1 / 12) (r2 / 12) payments 0 total) as Hl.
  rewrite !schedule_rows, !payoffMonth_rows, !remainingDebt_rows.
  repeat split.
  - exact Hl.
  - now apply push_rows_payoff_ledger.
  - rewrite !ledger_endDebt. now rewrite Hl.
Qed.

(** ** The loop as a transition system: determinism and termination *)

Lemma step_deterministic mr s s1 s2 :
  Machine.step mr s s1 -> Machine.step mr s s2 -> s1 = s2.
Proof.
  intros H1 H2. inversion H1 as [? p1 _ _ Hp1]; subst.
  inversion H2 as [? p2 _ _ Hp2]; subst.
  assert (p1 = p2) by congruence. now subst.
Qed.

Lemma step_excludes_exit mr s s' :
  Machine.step mr s s' -> ~ Machine.exits s.
Proof.
  intros H [Hlen | Hbreak]; inversion H; subst; [lia | congruence].
Qed.

Lemma step_keeps_payments mr s s' :
  Machine.step mr s s' -> Machine.payments s' = Machine.payments s.
Proof. intros H. inversion H; subst. reflexivity. Qed.

Lemma steps_keep_payments mr n s s' :
  Machine.steps mr n s s' -> Machine.payments s' = Machine.payments s.
Proof.
  induction 1 as [| n s s' s'' Hstep _ IH]; [reflexivity |].
  rewrite IH. eapply step_keeps_payments; eauto.
Qed.

Lemma steps_deterministic mr n1 s s1 :
  Machine.steps mr n1 s s1 ->
  forall n2 s2,
    Machine.steps mr n2 s s2 ->
    Machine.exits s1 -> Machine.exits s2 ->
    n1 = n2 /\ s1 = s2.
Proof.
  induction 1 as [s | n1 s s' s1 Hstep _ IH]; intros n2 s2 H2 He1 He2.
  - inversion H2 as [| ? ? t ? Hstep2]; subst; [split; reflexivity |].
    now apply step_excludes_exit in Hstep2.
  - inversion H2 as [| m ? t ? Hstep2 Hrest]; subst.
    + now apply step_excludes_exit in Hstep.
    + rewrite (step_deterministic _ _ _ _ Hstep2 Hstep) in Hrest.
      destruct (IH _ _ Hrest He1 He2) as [-> ->]. split; reflexivity.
Qed.

(** A state that is not an exit takes a step: the read [payments[i]] is in
    range and nothing in the body can fail. *)
Lemma step_progress mr s :
  ~ Machine.exits s -> exists s', Machine.step mr s s'.
Proof.
  intros Hne.
  assert (Hi : (Machine.i s < length (Machine.payments s))%nat).
  { destruct (Nat.lt_ge_cases (Machine.i s) (length (Machine.payments s)))
      as [Hlt | Hge]; [assumption |]. exfalso. apply Hne. now left. }
  assert (Hd : Q_leb (Vars.debt (Machine.vars s)) 0 = false).
  { destruct (Q_leb (Vars.debt (Machine.vars s)) 0) eqn:E; [| reflexivity].
    exfalso. apply Hne. now right. }
  destruct (nth_error (Machine.payments s) (Machine.i s)) as [p |] eqn:Hp.
  - eexists. now apply (Machine.step_iteration mr s p).
  - apply nth_error_None in Hp. lia.
Qed.

(** The transition system reaches an exit within [length rest] iterations,
    in the state computed by [for_loop]. *)
Lemma steps_for_loop mr rest : forall pre v,
  exists n s,
    (n <= length rest)%nat /\
    Machine.steps mr n (Machine.mkState (pre ++ rest) (length pre) v) s /\
    Machine.exits s /\
    Machine.vars s = for_loop mr (length pre) rest v.
Proof.
  induction rest as [| p rest IH]; intros pre v.
  - exists 0%nat, (Machine.mkState (pre ++ []) (length pre) v).
    repeat split; [lia | constructor |].
    left. cbn. rewrite app_nil_r. lia.
  - cbn [for_loop]. destruct (Q_leb (Vars.debt v) 0) eqn:Hd.
    + exists 0%nat, (Machine.mkState (pre ++ p :: rest) (length pre) v).
      repeat split; [lia | constructor |]. now right.
    + destruct (IH (pre ++ [p]) (loop_body mr (length pre) p v))
        as (n & s & Hn & Hsteps & Hexit & Hvars).
      rewrite <- app_assoc, length_app, Nat.add_1_r in Hsteps. cbn [app] in Hsteps.
      rewrite length_app, Nat.add_1_r in Hvars.
      exists (S n), s. repeat split; [cbn; lia | | assumption | assumption].
      eapply Machine.steps_next; [| exact Hsteps].
      apply (Machine.step_iteration mr
               (Machine.mkState (pre ++ p :: rest) (length pre) v) p).
      * cbn. rewrite length_app. cbn. lia.
      * assumption.
      * cbn. rewrite nth_error_app2, Nat.sub_diag by lia. reflexivity.
Qed.

Lemma returns_computeSchedule (total annualRate : Q) (payments : list Q) :
  exists n,
    (n <= length payments)%nat /\
    Machine.returns total annualRate payments n payments
                    (computeSchedule total annualRate payments).
Proof.
  destruct (steps_for_loop (annualRate / 12) payments [] (init_vars total))
    as (n & s & Hn & Hsteps & Hexit & Hvars).
  exists n. split; [assumption |]. exists s. repeat split.
  - exact Hsteps.
  - assumption.
  - symmetry. apply (steps_keep_payments _ _ _ _ Hsteps).
  - unfold computeSchedule. now rewrite Hvars.
Qed.

(** C9. For every principal, every annualRate and every finite payments
    sequence the call terminates, after at most length(payments) iterations,
    and returns a result, the one [computeSchedule] computes. *)
Theorem computeSchedule_terminates (total annualRate : Q) (payments : list Q) :
  exists n res,
    (n <= length payments)%nat /\
    Machine.returns total annualRate payments n payments res /\
    res = computeSchedule total annualRate payments.
Proof.
  destruct (returns_computeSchedule total annualRate payments) as (n & Hn & Hret).
  exists n, (computeSchedule total annualRate payments). auto.
Qed.

(** C8. Two calls with the same principal, annualRate and payments return
    the same result, and each leaves the payments array as it was passed. *)
Theorem computeSchedule_deterministic
        (total annualRate : Q) (payments : list Q)
        (n1 n2 : nat) (after1 after2 : list Q) (res1 res2 : ScheduleResult) :
  Machine.returns total annualRate payments n1 after1 res1 ->
  Machine.returns total annualRate payments n2 after2 res2 ->
  res1 = res2 /\ after1 = payments /\ after2 = payments.
Proof.
  intros (s1 & Hs1 & He1 & -> & ->) (s2 & Hs2 & He2 & -> & ->).
  destruct (steps_deterministic _ _ _ _ Hs1 _ _ Hs2 He1 He2) as [_ <-].
  repeat split; apply (steps_keep_payments _ _ _ _ Hs1).
Qed.

Ltac run_machine :=
  repeat first
    [ apply Machine.steps_done
    | eapply Machine.steps_next;
      [ eapply Machine.step_iteration; [cbn; lia | reflexivity | reflexivity]
      | cbn [Machine.payments Machine.i Machine.vars] ] ].

Lemma returns_example :
  Machine.returns 100 0 [50; 50] 2 [50; 50] (computeSchedule 100 0 [50; 50]).
Proof.
  eexists. split; [unfold Machine.entry; run_machine |].
  split; [left; cbn; lia |]. split; reflexivity.
Defined.

Lemma computeSchedule_deterministic_witness :
  Machine.returns 100 0 [50; 50] 2 [50; 50] (computeSchedule 100 0 [50; 50]) /\
  (computeSchedule 100 0 [50; 50] = computeSchedule 100 0 [50; 50] /\
   [50; 50] = [50; 50] /\ [50; 50] = [50; 50]).
Proof.
  split; [exact returns_example |].
  exact (computeSchedule_deterministic 100 0 [50; 50] 2 2 [50; 50] [50; 50]
           _ _ returns_example returns_example).
Defined.


(** * Further properties of [computeSchedule] *)

Lemma Q_leb_le (x : Q) : Q_leb x 0 = true -> x <= 0.
Proof. unfold Q_leb. apply Qle_bool_iff. Qed.

Lemma Q_leb_pos (x : Q) : 0 < x -> Q_leb x 0 = false.
Proof.
  intros Hx. destruct (Q_leb x 0) eqn:E; [| reflexivity].
  apply Q_leb_le in E. lra.
Qed.

Lemma Q_eqb_false (x : Q) : ~ x == 0 -> Q_eqb x 0 = false.
Proof.
  intros Hx. unfold Q_eqb. destruct (Qeq_bool x 0) eqn:E; [| reflexivity].
  apply Qeq_bool_iff in E. contradiction.
Qed.

Lemma Q_eqb_true (x : Q) : x == 0 -> Q_eqb x 0 = true.
Proof. intros Hx. unfold Q_eqb. now apply Qeq_bool_iff. Qed.

Lemma for_loop_nonpos mr i rest v :
  Vars.debt v <= 0 -> for_loop mr i rest v = v.
Proof.
  intros Hd. destruct rest as [| p rest]; [reflexivity |]. cbn [for_loop].
  unfold Q_leb. apply Qle_bool_iff in Hd. now rewrite Hd.
Qed.

Lemma make_row_planned mr i p d :
  paymentPlanned (make_row mr i p d) = planned p.
Proof. reflexivity. Qed.

Lemma planned_max (p : Q) : planned p == Qmax p 0.
Proof.
  unfold planned, Q_gtb.
  destruct (Qcompare_spec p 0) as [He | Hl | Hg];
    destruct (Q.max_spec p 0) as [[? HM] | [? HM]]; rewrite HM; lra.
Qed.

Lemma planned_total_nonneg ps : 0 <= planned_total ps.
Proof.
  induction ps as [| p ps IH]; cbn [planned_total fold_right]; [lra |].
  fold (planned_total ps). pose proof (planned_nonneg p) as Hp.
  fold (planned p) in Hp. lra.
Qed.

(** ** Total interest *)

Lemma binary64_for_loop_sum mr rest : forall i v,
  exists rs,
    Binary64.Vars.schedule (Binary64.for_loop mr i rest v)
    = Binary64.Vars.schedule v ++ rs /\
    Binary64.Vars.totalInterest (Binary64.for_loop mr i rest v)
    = fold_left PrimFloat.add (map Binary64.interest rs)
                (Binary64.Vars.totalInterest v).
Proof.
  induction rest as [| p rest IH]; intros i v; cbn [Binary64.for_loop].
  - exists []. split; [now rewrite app_nil_r | reflexivity].
  - destruct (PrimFloat.leb (Binary64.Vars.debt v) PrimFloat.zero).
    + exists []. split; [now rewrite app_nil_r | reflexivity].
    + destruct (IH (S i) (Binary64.loop_body mr i p v)) as (rs & Hrows & Hsum).
      exists (Binary64.make_row mr i p (Binary64.Vars.debt v) :: rs).
      split.
      * rewrite Hrows. cbn [Binary64.loop_body Binary64.Vars.schedule].
        now rewrite <- app_assoc.
      * rewrite Hsum. reflexivity.
Qed.

(** X1. On the binary64 numbers of the source, the returned totalInterest is
    the sum of the interest fields of the rows added up in row order, each
    addition rounded, starting from 0. *)
Theorem totalInterest_is_sum (total annualRate : float) (payments : list float) :
  let res := Binary64.computeSchedule total annualRate payments in
  Binary64.totalInterest res
  = fold_left PrimFloat.add
              (map Binary64.interest (Binary64.schedule res))
              PrimFloat.zero.
Proof.
  intros res. subst res. unfold Binary64.computeSchedule.
  cbn [Binary64.totalInterest Binary64.schedule].
  destruct (binary64_for_loop_sum
              (PrimFloat.div annualRate 12%float) payments 0
              (Binary64.Vars.mk total [] PrimFloat.zero None))
    as (rs & Hrows & Hsum).
  rewrite Hrows, Hsum. reflexivity.
Qed.

(** ** Conservation of the debt *)

Lemma rows_conservation mr rest : forall i d,
  d == last (map endDebt (rows mr i rest d)) d
       + sum_of paymentApplied (rows mr i rest d).
Proof.
  induction rest as [| p rest IH]; intros i d; cbn [rows].
  - cbn. lra.
  - destruct (Q_leb d 0) eqn:Hd; [cbn; lra |].
    apply Q_leb_false in Hd.
    destruct (make_row_bounds mr i p d Hd) as (_ & _ & _ & _ & _ & He).
    cbn zeta in He. remember (make_row mr i p d) as r0 eqn:Hr0.
    cbn [map sum_of fold_right]. rewrite last_cons.
    fold (sum_of paymentApplied (rows mr (S i) rest (endDebt r0))).
    specialize (IH (S i) (endDebt r0)). lra.
Qed.

(** X2. When the principal and the payments are integers of magnitude at
    most 2^53 - 1, the principal equals the remaining debt plus the sum of
    the payments applied: what the schedule takes off the debt is exactly
    what it applies. *)
Theorem debt_conservation (total annualRate : Q) (payments : list Q) :
  safe_integer total ->
  Forall safe_integer payments ->
  let res := computeSchedule total annualRate payments in
  total == remainingDebt res + sum_of paymentApplied (schedule res).
Proof.
  intros _ _ res. subst res. rewrite remainingDebt_rows, schedule_rows.
  apply rows_conservation.
Qed.

Lemma safe_integer_100 : safe_integer 100.
Proof. exists 100%Z. split; [reflexivity | lia]. Defined.

Lemma safe_integer_payments : Forall safe_integer [30; -5; 80; 9].
Proof.
  constructor; [exists 30%Z; split; [reflexivity | lia] |].
  constructor; [exists (-5)%Z; split; [reflexivity | lia] |].
  constructor; [exists 80%Z; split; [reflexivity | lia] |].
  constructor; [exists 9%Z; split; [reflexivity | lia] |].
  constructor.
Defined.

Lemma safe_integer_small_payments : Forall safe_integer [30; -5; 20].
Proof.
  constructor; [exists 30%Z; split; [reflexivity | lia] |].
  constructor; [exists (-5)%Z; split; [reflexivity | lia] |].
  constructor; [exists 20%Z; split; [reflexivity | lia] |].
  constructor.
Defined.

Lemma debt_conservation_witness :
  safe_integer 100 /\
  Forall safe_integer [30; -5; 80; 9] /\
  let res := computeSchedule 100 12 [30; -5; 80; 9] in
  100 == remainingDebt res + sum_of paymentApplied (schedule res).
Proof.
  split; [exact safe_integer_100 |]. split; [exact safe_integer_payments |].
  exact (debt_conservation 100 12 [30; -5; 80; 9]
           safe_integer_100 safe_integer_payments).
Defined.

Lemma rows_last_bounds mr rest : forall i d,
  0 <= d ->
  0 <= last (map endDebt (rows mr i rest d)) d /\
  last (map endDebt (rows mr i rest d)) d <= d.
Proof.
  induction rest as [| p rest IH]; intros i d Hd0; cbn [rows].
  - cbn. lra.
  - destruct (Q_leb d 0) eqn:Hd; [cbn; lra |].
    apply Q_leb_false in Hd.
    destruct (make_row_bounds mr i p d Hd) as (_ & _ & _ & He0 & Hed & _).
    cbn zeta in He0, Hed. remember (make_row mr i p d) as r0 eqn:Hr0.
    cbn [map]. rewrite last_cons.
    destruct (IH (S i) (endDebt r0) He0) as [H1 H2]. lra.
Qed.

(** X3. For a principal >= 0 the remaining debt lies between 0 and the
    principal. *)
Theorem remainingDebt_bounds (total annualRate : Q) (payments : list Q) :
  0 <= total ->
  0 <= remainingDebt (computeSchedule total annualRate payments) /\
  remainingDebt (computeSchedule total annualRate payments) <= total.
Proof.
  intros Ht. rewrite remainingDebt_rows. now apply rows_last_bounds.
Qed.

Lemma remainingDebt_bounds_witness :
  0 <= 100 /\
  0 <= remainingDebt (computeSchedule 100 12 [30; -5; 20]) /\
  remainingDebt (computeSchedule 100 12 [30; -5; 20]) <= 100.
Proof.
  split; [lra | apply (remainingDebt_bounds 100 12 [30; -5; 20]); lra].
Defined.

(** ** What the payoff month says *)

Lemma rows_payoff_some mr rest : forall i d v m,
  Vars.payoffMonth v = None ->
  Vars.payoffMonth (fold_left push_row (rows mr i rest d) v) = Some m ->
  m = (i + length (rows mr i rest d))%nat /\
  rows mr i rest d <> [] /\
  last (map endDebt (rows mr i rest d)) d == 0.
Proof.
  induction rest as [| p rest IH]; intros i d v m Hv; cbn [rows].
  - cbn. congruence.
  - destruct (Q_leb d 0) eqn:Hd; [cbn; congruence |].
    remember (make_row mr i p d) as r0 eqn:Hr0. cbn [fold_left map length].
    rewrite last_cons. intros Hm.
    destruct (Qeq_bool (endDebt r0) 0) eqn:E.
    + assert (Hz : endDebt r0 == 0) by now apply Qeq_bool_iff.
      assert (Hle : endDebt r0 <= 0) by (rewrite Hz; apply Qle_refl).
      rewrite (rows_nonpos _ _ _ _ Hle) in *. cbn in Hm |- *.
      unfold Q_eqb in Hm. rewrite E, Hv in Hm. cbn in Hm.
      injection Hm as <-. split; [now rewrite Hr0, make_row_month |].
      split; [discriminate | assumption].
    + destruct (IH (S i) (endDebt r0) (push_row v r0) m) as (Hlen & _ & Hlast).
      * cbn. unfold Q_eqb. now rewrite E.
      * exact Hm.
      * split; [lia |]. split; [discriminate | assumption].
Qed.

(** X4. When a payoff month m is returned, m is the number of rows (the
    payoff row is the last one), 1 <= m <= length(payments), and the
    remaining debt is zero. *)
Theorem payoffMonth_some (total annualRate : Q) (payments : list Q) (m : nat) :
  payoffMonth (computeSchedule total annualRate payments) = Some m ->
  m = length (schedule (computeSchedule total annualRate payments)) /\
  (1 <= m <= length payments)%nat /\
  remainingDebt (computeSchedule total annualRate payments) == 0.
Proof.
  rewrite payoffMonth_rows, schedule_rows, remainingDebt_rows. intros Hm.
  destruct (rows_payoff_some _ _ _ _ (init_vars total) _ eq_refl Hm)
    as (Hlen & Hne & Hz).
  cbn in Hlen. pose proof (rows_length (annualRate / 12) payments 0 total).
  destruct (rows (annualRate / 12) 0 payments total) eqn:E; [congruence |].
  cbn [length] in *. repeat split; try assumption; lia.
Qed.

Lemma payoffMonth_some_witness :
  payoffMonth (computeSchedule 100 12 [30; 80; 50]) = Some 2%nat /\
  2%nat = length (schedule (computeSchedule 100 12 [30; 80; 50])) /\
  (1 <= 2 <= length ([30; 80; 50]%Q))%nat /\
  remainingDebt (computeSchedule 100 12 [30; 80; 50]) == 0.
Proof.
  assert (H : payoffMonth (computeSchedule 100 12 [30; 80; 50]) = Some 2%nat)
    by reflexivity.
  split; [exact H |].
  exact (payoffMonth_some 100 12 [30; 80; 50] 2 H).
Defined.

Lemma rows_payoff_none mr rest : forall i d v,
  Vars.payoffMonth (fold_left push_row (rows mr i rest d) v) = None ->
  0 < d ->
  0 < last (map endDebt (rows mr i rest d)) d /\
  length (rows mr i rest d) = length rest.
Proof.
  induction rest as [| p rest IH]; intros i d v Hnone Hd; cbn [rows] in *.
  - cbn. split; [assumption | reflexivity].
  - rewrite (Q_leb_pos _ Hd) in *.
    destruct (make_row_bounds mr i p d Hd) as (_ & _ & _ & He0 & _ & _).
    cbn zeta in He0. remember (make_row mr i p d) as r0 eqn:Hr0.
    cbn [fold_left map length] in *. rewrite last_cons.
    destruct (Qeq_bool (endDebt r0) 0) eqn:E.
    + assert (Hz : endDebt r0 == 0) by now apply Qeq_bool_iff.
      assert (Hle : endDebt r0 <= 0) by (rewrite Hz; apply Qle_refl).
      rewrite (rows_nonpos _ _ _ _ Hle) in Hnone. cbn in Hnone.
      unfold Q_eqb in Hnone. rewrite E in Hnone.
      destruct (Vars.payoffMonth v); discriminate.
    + assert (Hpos : 0 < endDebt r0).
      { apply Qeq_bool_neq in E. apply Qle_lteq in He0.
        destruct He0 as [? | Heq]; [assumption |].
        exfalso. apply E. symmetry. exact Heq. }
      destruct (IH (S i) (endDebt r0) (push_row v r0) Hnone Hpos) as [H1 H2].
      split; [assumption | now rewrite H2].
Qed.

(** X5. When no payoff month is returned for a principal > 0, every month
    was simulated (one row per entry of payments) and the remaining debt is
    still positive. *)
Theorem payoffMonth_none (total annualRate : Q) (payments : list Q) :
  0 < total ->
  payoffMonth (computeSchedule total annualRate payments) = None ->
  length (schedule (computeSchedule total annualRate payments)) = length payments /\
  0 < remainingDebt (computeSchedule total annualRate payments).
Proof.
  rewrite payoffMonth_rows, schedule_rows, remainingDebt_rows. intros Ht Hnone.
  destruct (rows_payoff_none _ _ _ _ _ Hnone Ht) as [H1 H2]. auto.
Qed.

Lemma payoffMonth_none_witness :
  0 < 100 /\
  payoffMonth (computeSchedule 100 12 [30; -5; 20]) = None /\
  length (schedule (computeSchedule 100 12 [30; -5; 20])) = length [30; -5; 20] /\
  0 < remainingDebt (computeSchedule 100 12 [30; -5; 20]).
Proof.
  assert (Ht : 0 < 100) by reflexivity.
  assert (H : payoffMonth (computeSchedule 100 12 [30; -5; 20]) = None)
    by reflexivity.
  split; [exact Ht |]. split; [exact H |].
  exact (payoffMonth_none 100 12 [30; -5; 20] Ht H).
Defined.

(** X6. For a principal <= 0 nothing is simulated: the schedule is empty,
    totalInterest is 0, the principal is returned as remainingDebt, and no
    payoff month is reported, even for a principal of exactly 0. *)
Theorem nonpositive_principal (total annualRate : Q) (payments : list Q) :
  total <= 0 ->
  computeSchedule total annualRate payments = mkResult [] 0 None total.
Proof.
  intros Ht. unfold computeSchedule. rewrite for_loop_nonpos; [reflexivity |].
  exact Ht.
Qed.

Lemma nonpositive_principal_witness :
  0 <= 0 /\ computeSchedule 0 12 [30; 80] = mkResult [] 0 None 0.
Proof.
  split; [apply Qle_refl | apply (nonpositive_principal 0 12 [30; 80])].
  apply Qle_refl.
Defined.

(** X7. The row at position k has month k + 1 and its paymentPlanned is
    max(payments[k], 0): rows are numbered 1, 2, ... without gaps and row k
    is built from entry k. *)
Theorem row_at_position (total annualRate : Q) (payments : list Q)
        (k : nat) (r : Row) :
  nth_error (schedule (computeSchedule total annualRate payments)) k = Some r ->
  month r = (k + 1)%nat /\
  exists p, nth_error payments k = Some p /\ paymentPlanned r == Qmax p 0.
Proof.
  rewrite schedule_rows. intros Hr.
  destruct (rows_nth _ _ _ _ _ _ Hr) as (p & sd & Hp & -> & _).
  split; [reflexivity |]. exists p. split; [assumption |].
  rewrite make_row_planned. apply planned_max.
Qed.

Lemma row_at_position_witness :
  let r := make_row (12 / 12) 1 (-5) 70 in
  nth_error (schedule (computeSchedule 100 12 [30; -5; 20])) 1 = Some r /\
  month r = 2%nat /\
  exists p, nth_error [30; -5; 20] 1 = Some p /\ paymentPlanned r == Qmax p 0.
Proof.
  intros r.
  assert (H : nth_error (schedule (computeSchedule 100 12 [30; -5; 20])) 1
              = Some r) by reflexivity.
  split; [exact H |].
  exact (row_at_position 100 12 [30; -5; 20] 1 r H).
Defined.

(** ** Longer payment sequences *)

Lemma for_loop_app mr ps extra : forall i v,
  for_loop mr i (ps ++ extra) v
  = for_loop mr (i + length ps) extra (for_loop mr i ps v).
Proof.
  induction ps as [| p ps IH]; intros i v; cbn [app for_loop length].
  - now rewrite Nat.add_0_r.
  - destruct (Q_leb (Vars.debt v) 0) eqn:Hd.
    + symmetry. apply for_loop_nonpos. now apply Q_leb_le.
    + rewrite IH. f_equal. lia.
Qed.

Lemma last_app_default {A : Type} (l2 : list A) : forall l1 d,
  last (l1 ++ l2) d = last l2 (last l1 d).
Proof.
  intros l1. induction l1 as [| x l1 IH]; intros d; [reflexivity |].
  change ((x :: l1) ++ l2) with (x :: (l1 ++ l2)).
  now rewrite !last_cons, IH.
Qed.

Lemma rows_shift mr n rest : forall i d,
  rows mr (i + n) rest d = map (shift_month n) (rows mr i rest d).
Proof.
  induction rest as [| p rest IH]; intros i d; cbn [rows]; [reflexivity |].
  destruct (Q_leb d 0); [reflexivity |]. cbn [map]. f_equal.
  - unfold shift_month, make_row. cbn. f_equal. lia.
  - apply (IH (S i)).
Qed.

Lemma rows_app mr ps extra : forall i d,
  rows mr i (ps ++ extra) d
  = rows mr i ps d
    ++ rows mr (i + length ps) extra (last (map endDebt (rows mr i ps d)) d).
Proof.
  induction ps as [| p ps IH]; intros i d; cbn [app rows length].
  - now rewrite Nat.add_0_r.
  - destruct (Q_leb d 0) eqn:Hd.
    + cbn. symmetry. apply rows_nonpos. now apply Q_leb_le.
    + cbn [map app]. rewrite last_cons, IH. do 3 f_equal. lia.
Qed.

(** X8. Simulating [payments ++ extra] is simulating [payments] and then
    [extra] from the remaining debt: the schedule is the first schedule
    followed by the second with its months moved up by length(payments), and
    the remaining debt is that of the second run. *)
Theorem computeSchedule_app (total annualRate : Q) (payments extra : list Q) :
  let a := computeSchedule total annualRate payments in
  let b := computeSchedule (remainingDebt a) annualRate extra in
  let c := computeSchedule total annualRate (payments ++ extra) in
  schedule c = schedule a ++ map (shift_month (length payments)) (schedule b) /\
  remainingDebt c = remainingDebt b.
Proof.
  intros a b c. subst a b c.
  rewrite !schedule_rows, !remainingDebt_rows.
  rewrite rows_app. cbn [Nat.add].
  rewrite <- (rows_shift _ (length payments) extra 0). cbn [Nat.add].
  split; [reflexivity |].
  rewrite map_app, last_app_default. f_equal.
  rewrite (rows_shift _ (length payments) extra 0), map_map. reflexivity.
Qed.

(** X9. Once a payoff month is returned for [payments], appending further
    entries changes nothing in the result. *)
Theorem entries_after_payoff_ignored
        (total annualRate : Q) (payments extra : list Q) (m : nat) :
  payoffMonth (computeSchedule total annualRate payments) = Some m ->
  computeSchedule total annualRate (payments ++ extra)
  = computeSchedule total annualRate payments.
Proof.
  intros Hm. rewrite payoffMonth_rows in Hm.
  destruct (rows_payoff_some _ _ _ _ (init_vars total) _ eq_refl Hm)
    as (_ & _ & Hz).
  unfold computeSchedule. rewrite for_loop_app. f_equal.
  apply for_loop_nonpos. rewrite for_loop_rows, push_rows_debt.
  cbn [init_vars Vars.debt]. rewrite Hz. apply Qle_refl.
Qed.

Lemma entries_after_payoff_ignored_witness :
  payoffMonth (computeSchedule 100 12 [30; 80]) = Some 2%nat /\
  computeSchedule 100 12 ([30; 80] ++ [50; 7])
  = computeSchedule 100 12 [30; 80].
Proof.
  assert (H : payoffMonth (computeSchedule 100 12 [30; 80]) = Some 2%nat)
    by reflexivity.
  split; [exact H |].
  exact (entries_after_payoff_ignored 100 12 [30; 80] [50; 7] 2 H).
Defined.

(** ** Payments against the principal *)

Lemma partial_payment_row mr i p d :
  0 < d -> planned p < d ->
  ~ endDebt (make_row mr i p d) == 0 /\
  endDebt (make_row mr i p d) == d - planned p.
Proof.
  intros Hd Hp.
  destruct (make_row_bounds mr i p d Hd) as (_ & _ & _ & _ & _ & He).
  cbn zeta in He.
  assert (Hpa : paymentApplied (make_row mr i p d) == planned p).
  { cbn [make_row paymentApplied]. fold (planned p). unfold Math.min.
    destruct (Q.min_spec (planned p) d) as [[_ Hm] | [? _]]; [exact Hm | lra]. }
  split; lra.
Qed.

Lemma covering_payment_row mr i p d :
  0 < d -> d <= planned p -> endDebt (make_row mr i p d) == 0.
Proof.
  intros Hd Hp. apply (full_payment_row mr i p d Hd).
  now rewrite make_row_planned.
Qed.

Lemma for_loop_underpaid mr ps : forall i v,
  Vars.payoffMonth v = None ->
  planned_total ps < Vars.debt v ->
  Vars.debt (for_loop mr i ps v) == Vars.debt v - planned_total ps /\
  Vars.payoffMonth (for_loop mr i ps v) = None /\
  length (Vars.schedule (for_loop mr i ps v))
  = (length (Vars.schedule v) + length ps)%nat.
Proof.
  induction ps as [| p ps IH]; intros i v Hv Hlt;
    cbn [planned_total fold_right for_loop length] in *.
  - split; [lra |]. split; [assumption | lia].
  - fold (planned_total ps) in *.
    pose proof (planned_total_nonneg ps) as Hps.
    pose proof (planned_nonneg p) as Hp. fold (planned p) in Hp.
    assert (Hd : 0 < Vars.debt v) by lra.
    rewrite (Q_leb_pos _ Hd).
    destruct (partial_payment_row mr i p (Vars.debt v) Hd) as [Hnz He]; [lra |].
    destruct (IH (S i) (loop_body mr i p v)) as (H1 & H2 & H3).
    + rewrite loop_body_push. cbn [push_row Vars.payoffMonth].
      now rewrite (Q_eqb_false _ Hnz).
    + rewrite loop_body_push. cbn [push_row Vars.debt]. lra.
    + split; [| split; [assumption |]].
      * rewrite H1, loop_body_push. cbn [push_row Vars.debt]. lra.
      * rewrite H3, loop_body_push. cbn [push_row Vars.schedule].
        rewrite length_app. cbn [length]. lia.
Qed.

(** X10. When the principal and the payments are integers of magnitude at
    most 2^53 - 1 and the clamped payments add up to less than the principal,
    the debt is not paid off: every month is simulated, no payoff month is
    returned and the remaining debt is the principal minus the sum of
    max(p, 0) over the payments. *)
Theorem underpaid_schedule (total annualRate : Q) (payments : list Q) :
  safe_integer total ->
  Forall safe_integer payments ->
  planned_total payments < total ->
  let res := computeSchedule total annualRate payments in
  remainingDebt res == total - planned_total payments /\
  payoffMonth res = None /\
  length (schedule res) = length payments.
Proof.
  intros _ _ Hlt res. subst res. unfold computeSchedule.
  cbn [result_of remainingDebt payoffMonth schedule].
  destruct (for_loop_underpaid (annualRate / 12) payments 0 (init_vars total)
              eq_refl Hlt) as (H1 & H2 & H3).
  auto.
Qed.

Lemma underpaid_schedule_witness :
  safe_integer 100 /\
  Forall safe_integer [30; -5; 20] /\
  planned_total [30; -5; 20] < 100 /\
  let res := computeSchedule 100 12 [30; -5; 20] in
  remainingDebt res == 100 - planned_total [30; -5; 20] /\
  payoffMonth res = None /\
  length (schedule res) = length [30; -5; 20].
Proof.
  assert (H : planned_total [30; -5; 20] < 100) by reflexivity.
  split; [exact safe_integer_100 |].
  split; [exact safe_integer_small_payments |].
  split; [exact H |].
  exact (underpaid_schedule 100 12 [30; -5; 20]
           safe_integer_100 safe_integer_small_payments H).
Defined.

Lemma for_loop_covered mr ps : forall i v,
  Vars.payoffMonth v = None ->
  0 < Vars.debt v ->
  Vars.debt v <= planned_total ps ->
  exists k,
    Vars.payoffMonth (for_loop mr i ps v) = Some (i + S k)%nat /\
    (k < length ps)%nat /\
    planned_total (firstn k ps) < Vars.debt v /\
    Vars.debt v <= planned_total (firstn (S k) ps) /\
    Vars.debt (for_loop mr i ps v) == 0.
Proof.
  induction ps as [| p ps IH]; intros i v Hv Hd Hle;
    cbn [planned_total fold_right for_loop length] in *.
  - lra.
  - fold (planned_total ps) in *. rewrite (Q_leb_pos _ Hd).
    destruct (Qlt_le_dec (planned p) (Vars.debt v)) as [Hlt | Hge].
    + destruct (partial_payment_row mr i p (Vars.debt v) Hd Hlt) as [Hnz He].
      destruct (IH (S i) (loop_body mr i p v)) as (k & Hk & Hlen & Hlo & Hhi & Hz).
      * rewrite loop_body_push. cbn [push_row Vars.payoffMonth].
        now rewrite (Q_eqb_false _ Hnz).
      * rewrite loop_body_push. cbn [push_row Vars.debt].
        destruct (make_row_bounds mr i p (Vars.debt v) Hd)
          as (_ & _ & _ & He0 & _ & _). cbn zeta in He0.
        apply Qle_lteq in He0. destruct He0 as [? | Heq]; [assumption |].
        exfalso. apply Hnz. symmetry. exact Heq.
      * rewrite loop_body_push. cbn [push_row Vars.debt]. lra.
      * rewrite loop_body_push in Hlo, Hhi. cbn [push_row Vars.debt] in Hlo, Hhi.
        exists (S k). split; [rewrite Hk; f_equal; lia |].
        split; [lia |].
        change (firstn (S k) (p :: ps)) with (p :: firstn k ps).
        change (firstn (S (S k)) (p :: ps)) with (p :: firstn (S k) ps).
        cbn [planned_total fold_right].
        fold (planned_total (firstn k ps)). fold (planned_total (firstn (S k) ps)).
        split; [lra |]. split; [lra | assumption].
    + pose proof (covering_payment_row mr i p (Vars.debt v) Hd Hge) as Hz.
      exists 0%nat. rewrite for_loop_nonpos.
      * rewrite loop_body_push. cbn [push_row Vars.payoffMonth Vars.debt].
        rewrite (Q_eqb_true _ Hz), Hv. cbn [is_null andb].
        rewrite make_row_month.
        split; [f_equal; lia |]. split; [lia |].
        cbn [firstn planned_total fold_right].
        split; [assumption |]. split; [lra | assumption].
      * rewrite loop_body_push. cbn [push_row Vars.debt]. rewrite Hz.
        apply Qle_refl.
Qed.

(** X11. When the principal and the payments are integers of magnitude at
    most 2^53 - 1, the principal is positive and the clamped payments add up
    to at least the principal, the debt is paid off: a payoff month m is
    returned, the remaining debt is zero, and m is the first month by which
    the cumulative clamped payments reach the principal. *)
Theorem covered_schedule (total annualRate : Q) (payments : list Q) :
  safe_integer total ->
  Forall safe_integer payments ->
  0 < total ->
  total <= planned_total payments ->
  let res := computeSchedule total annualRate payments in
  remainingDebt res == 0 /\
  exists m,
    payoffMonth res = Some m /\
    (1 <= m <= length payments)%nat /\
    planned_total (firstn (m - 1) payments) < total /\
    total <= planned_total (firstn m payments).
Proof.
  intros _ _ Ht Hle res. subst res. unfold computeSchedule.
  cbn [result_of remainingDebt payoffMonth].
  destruct (for_loop_covered (annualRate / 12) payments 0 (init_vars total)
              eq_refl Ht Hle) as (k & Hk & Hlen & Hlo & Hhi & Hz).
  cbn [init_vars Vars.debt] in Hlo, Hhi.
  split; [assumption |]. exists (S k). cbn [Nat.add] in Hk.
  split; [assumption |]. split; [lia |].
  replace (S k - 1)%nat with k by lia. split; assumption.
Qed.

Lemma covered_schedule_witness :
  safe_integer 100 /\
  Forall safe_integer [30; -5; 80; 9] /\
  0 < 100 /\
  100 <= planned_total [30; -5; 80; 9] /\
  let res := computeSchedule 100 12 [30; -5; 80; 9] in
  remainingDebt res == 0 /\
  exists m,
    payoffMonth res = Some m /\
    (1 <= m <= length ([30; -5; 80; 9]%Q))%nat /\
    planned_total (firstn (m - 1) [30; -5; 80; 9]) < 100 /\
    100 <= planned_total (firstn m [30; -5; 80; 9]).
Proof.
  assert (Ht : 0 < 100) by reflexivity.
  assert (H : 100 <= planned_total [30; -5; 80; 9]) by (vm_compute; discriminate).
  split; [exact safe_integer_100 |]. split; [exact safe_integer_payments |].
  split; [exact Ht |]. split; [exact H |].
  exact (covered_schedule 100 12 [30; -5; 80; 9]
           safe_integer_100 safe_integer_payments Ht H).
Defined.

(** * The form around the engine *)

(** ** Writing one payment *)

Lemma array_set_in_range {A : Type} (a : list (option A)) index (x : A) :
  (index < length a)%nat ->
  length (Js.array_set a index x) = length a /\
  nth_error (Js.array_set a index x) index = Some (Some x) /\
  (forall k, k <> index ->
             nth_error (Js.array_set a index x) k = nth_error a k).
Proof.
  intros Hi. unfold Js.array_set.
  destruct (Nat.ltb_spec index (length a)) as [_ | ?]; [| lia].
  assert (Hf : length (firstn index a) = index)
    by (rewrite length_firstn; lia).
  split; [| split].
  - rewrite length_app. cbn [length]. rewrite Hf, length_skipn. lia.
  - rewrite nth_error_app2 by lia. rewrite Hf, Nat.sub_diag. reflexivity.
  - intros k Hk. destruct (Nat.lt_ge_cases k index) as [Hlt | Hge].
    + rewrite nth_error_app1 by lia. rewrite nth_error_firstn.
      destruct (Nat.ltb_spec k index); [reflexivity | lia].
    + rewrite nth_error_app2 by lia. rewrite Hf.
      destruct (k - index)%nat as [| j] eqn:Hj; [lia |].
      cbn [nth_error]. rewrite nth_error_skipn. f_equal. lia.
Qed.

Lemma array_set_past_end {A : Type} (a : list (option A)) index (x : A) :
  (length a <= index)%nat ->
  length (Js.array_set a index x) = S index /\
  nth_error (Js.array_set a index x) index = Some (Some x) /\
  (forall k, (k < length a)%nat ->
             nth_error (Js.array_set a index x) k = nth_error a k) /\
  (forall k, (length a <= k < index)%nat ->
             nth_error (Js.array_set a index x) k = Some None).
Proof.
  intros Hi. unfold Js.array_set.
  destruct (Nat.ltb_spec index (length a)) as [? | _]; [lia |].
  split; [| split; [| split]].
  - rewrite !length_app, repeat_length. cbn [length]. lia.
  - rewrite nth_error_app2 by lia.
    rewrite nth_error_app2 by (rewrite repeat_length; lia).
    rewrite repeat_length, Nat.sub_diag. reflexivity.
  - intros k Hk. now rewrite nth_error_app1 by lia.
  - intros k Hk. rewrite nth_error_app2 by lia.
    rewrite nth_error_app1 by (rewrite repeat_length; lia).
    apply nth_error_repeat. lia.
Qed.

(** X12. Writing the payment of an existing month changes that entry only:
    the array keeps its length, entry [index] holds the new value, every
    other entry and the three text fields are as before. *)
Theorem setPaymentAt_in_range (index : nat) (value : Q) (st : Calculator.State) :
  (index < length (Calculator.payments st))%nat ->
  let st' := Calculator.setPaymentAt index value st in
  length (Calculator.payments st') = length (Calculator.payments st) /\
  nth_error (Calculator.payments st') index = Some (Some value) /\
  (forall k, k <> index ->
             nth_error (Calculator.payments st') k
             = nth_error (Calculator.payments st) k) /\
  Calculator.total st' = Calculator.total st /\
  Calculator.annualRatePct st' = Calculator.annualRatePct st /\
  Calculator.months st' = Calculator.months st.
Proof.
  intros Hi st'. subst st'. cbn.
  destruct (array_set_in_range (Calculator.payments st) index value Hi)
    as (H1 & H2 & H3).
  split; [exact H1 |]. split; [exact H2 |]. split; [exact H3 |].
  split; [reflexivity |]. split; reflexivity.
Qed.

Lemma setPaymentAt_in_range_witness :
  let st := Calculator.mkState [] [] [] [Some 5; Some 6; Some 7] in
  (1 < length (Calculator.payments st))%nat /\
  let st' := Calculator.setPaymentAt 1 9 st in
  length (Calculator.payments st') = length (Calculator.payments st) /\
  nth_error (Calculator.payments st') 1 = Some (Some 9) /\
  (forall k, k <> 1%nat ->
             nth_error (Calculator.payments st') k
             = nth_error (Calculator.payments st) k) /\
  Calculator.total st' = Calculator.total st /\
  Calculator.annualRatePct st' = Calculator.annualRatePct st /\
  Calculator.months st' = Calculator.months st.
Proof.
  intros st.
  assert (H : (1 < length (Calculator.payments st))%nat) by (cbn; lia).
  split; [exact H |].
  exact (setPaymentAt_in_range 1 9 st H).
Defined.



(** ** Changing the number of months *)

Lemma uint_of_units_of_uint (u : Decimal.uint) :
  Js.uint_of_units (Js.units_of_uint u) = Some u.
Proof.
  induction u as [| u IH | u IH | u IH | u IH | u IH | u IH | u IH | u IH
                  | u IH | u IH];
    cbn [Js.units_of_uint Js.uint_of_units]; [reflexivity | ..];
    rewrite IH; reflexivity.
Qed.

Lemma Number_digits_toString (n : N) :
  Js.Number_digits (Js.toString n) = Some n.
Proof.
  unfold Js.Number_digits, Js.toString. rewrite uint_of_units_of_uint.
  cbn [option_map]. now rewrite DecimalN.Unsigned.of_to.
Qed.

Lemma toString_nonempty (n : N) : Js.toString n <> [].
Proof.
  intros H. pose proof (Number_digits_toString n) as Hn. rewrite H in Hn.
  cbn in Hn. injection Hn as <-. cbn in H. discriminate H.
Qed.

(** [resize] returns exactly when the growth is accepted; otherwise the
    RangeError is thrown. *)
Lemma resize_some limit m prev :
  growth_accepted limit m prev <->
  exists next, Calculator.resize limit m prev = Some next.
Proof.
  unfold growth_accepted, Calculator.resize.
  destruct (Z.ltb_spec (Z.of_nat (length prev)) m) as [Hgrow | Hle].
  - destruct (Z.leb_spec (m - Z.of_nat (length prev)) 4294967295) as [H1 | H1];
      destruct (Z.leb_spec (m - Z.of_nat (length prev)) (Z.of_nat limit))
        as [H2 | H2]; cbn [andb]; split;
      try (intros _; eexists; reflexivity);
      try (intros [? ?]; lia);
      try (intros [? ?]; discriminate);
      try (intros _; split; assumption).
  - split; [| intros _; lia].
    intros _. destruct (Z.ltb_spec m (Z.of_nat (length prev)));
      eexists; reflexivity.
Qed.

Lemma resize_nth limit m prev next k :
  (1 <= m)%Z ->
  Calculator.resize limit m prev = Some next ->
  nth_error next k
  = if (k <? Z.to_nat m)%nat
    then (if (k <? length prev)%nat then nth_error prev k else Some (Some 0))
    else None.
Proof.
  intros Hm. unfold Calculator.resize.
  destruct (Z.ltb_spec (Z.of_nat (length prev)) m) as [Hgrow | Hle].
  - destruct ((m - Z.of_nat (length prev) <=? 4294967295)%Z
              && (m - Z.of_nat (length prev) <=? Z.of_nat limit)%Z);
      [| discriminate].
    intros H. injection H as <-.
    destruct (Nat.ltb_spec k (length prev)) as [Hk | Hk].
    + rewrite nth_error_app1 by lia.
      destruct (Nat.ltb_spec k (Z.to_nat m)); [reflexivity | lia].
    + rewrite nth_error_app2 by lia.
      destruct (Nat.ltb_spec k (Z.to_nat m)) as [Hkm | Hkm].
      * apply nth_error_repeat. lia.
      * apply nth_error_None. rewrite repeat_length. lia.
  - destruct (Z.ltb_spec m (Z.of_nat (length prev))) as [Hshrink | Hsame];
      intros H; injection H as <-.
    + rewrite nth_error_firstn.
      destruct (Nat.ltb_spec k (Z.to_nat m)) as [Hkm | Hkm]; [| reflexivity].
      destruct (Nat.ltb_spec k (length prev)); [reflexivity | lia].
    + destruct (Nat.ltb_spec k (Z.to_nat m)) as [Hkm | Hkm].
      * destruct (Nat.ltb_spec k (length prev)); [reflexivity | lia].
      * apply nth_error_None. lia.
Qed.

Lemma resize_length limit m prev next :
  (1 <= m)%Z ->
  Calculator.resize limit m prev = Some next ->
  length next = Z.to_nat m.
Proof.
  intros Hm. unfold Calculator.resize.
  destruct (Z.ltb_spec (Z.of_nat (length prev)) m) as [Hgrow | Hle].
  - destruct ((m - Z.of_nat (length prev) <=? 4294967295)%Z
              && (m - Z.of_nat (length prev) <=? Z.of_nat limit)%Z);
      [| discriminate].
    intros H. injection H as <-. rewrite length_app, repeat_length. lia.
  - destruct (Z.ltb_spec m (Z.of_nat (length prev))) as [Hshrink | Hsame];
      intros H; injection H as <-.
    + rewrite length_firstn. lia.
    + lia.
Qed.

Lemma months_of_pos (n : Q) : (1 <= Z.max 1 (Qfloor n))%Z.
Proof. lia. Qed.

(** [setMonthsCount] on a number, taken apart. *)
Lemma setMonthsCount_number_inv limit n st st' :
  Calculator.setMonthsCount limit (Calculator.arg_number n) st = Some st' ->
  exists next,
    Calculator.resize limit (Z.max 1 (Qfloor n)) (Calculator.payments st)
    = Some next /\
    st' = Calculator.mkState (Calculator.total st) (Calculator.annualRatePct st)
                             (Js.toString (Z.to_N (Z.max 1 (Qfloor n)))) next.
Proof.
  cbn [Calculator.setMonthsCount].
  destruct (Calculator.resize limit (Z.max 1 (Qfloor n)) (Calculator.payments st))
    as [next |]; [| discriminate].
  intros H. injection H as <-. eauto.
Qed.




(** X15. When [setMonthsCount] returns a state (whatever its argument), the
    months field and the array agree: read as a number the field is the
    length of the array, and the field is empty exactly when the array is.
    The array passed in has at most 2^32 - 1 entries, as every array has. *)
Theorem setMonthsCount_months_agree
        (spread_limit : nat) (n : Calculator.MonthsArg)
        (st st' : Calculator.State) :
  (Z.of_nat (length (Calculator.payments st)) <= 4294967295)%Z ->
  Calculator.setMonthsCount spread_limit n st = Some st' ->
  Js.Number_digits (Calculator.months st')
  = Some (N.of_nat (length (Calculator.payments st'))) /\
  (Calculator.months st' = [] <-> Calculator.payments st' = []).
Proof.
  intros _ Hset. destruct n as [| | n].
  - cbn in Hset. injection Hset as <-. cbn. split; [reflexivity | tauto].
  - cbn in Hset. injection Hset as <-. cbn. split; [reflexivity | tauto].
  - apply setMonthsCount_number_inv in Hset. destruct Hset as (next & Hnext & ->).
    pose proof (months_of_pos n) as Hm.
    pose proof (resize_length _ _ _ _ Hm Hnext) as Hlen.
    cbn [Calculator.months Calculator.payments]. split.
    + rewrite Number_digits_toString, Hlen. f_equal. lia.
    + split; intros H.
      * now apply toString_nonempty in H.
      * subst next. cbn in Hlen. lia.
Qed.

Lemma setMonthsCount_months_agree_witness :
  let st := Calculator.mkState [] [] [] [Some 5; Some 6] in
  let st' := Calculator.mkState [] [] (Js.toString 3)
                                [Some 5; Some 6; Some 0] in
  (Z.of_nat (length (Calculator.payments st)) <= 4294967295)%Z /\
  Calculator.setMonthsCount 1000 (Calculator.arg_number (7 # 2)) st = Some st' /\
  Js.Number_digits (Calculator.months st')
  = Some (N.of_nat (length (Calculator.payments st'))) /\
  (Calculator.months st' = [] <-> Calculator.payments st' = []).
Proof.
  intros st st'.
  assert (Hlen : (Z.of_nat (length (Calculator.payments st)) <= 4294967295)%Z)
    by (vm_compute; discriminate).
  assert (Hset : Calculator.setMonthsCount 1000 (Calculator.arg_number (7 # 2)) st
                 = Some st') by reflexivity.
  split; [exact Hlen |]. split; [exact Hset |].
  exact (setMonthsCount_months_agree 1000 (Calculator.arg_number (7 # 2))
           st st' Hlen Hset).
Defined.

(** X16. Passing through a larger number of months loses nothing: for
    n2 <= n1, when setting n1 months returns a state, setting n2 months
    from it gives what setting n2 months at once gives. *)
Theorem setMonthsCount_shrink
        (spread_limit : nat) (n1 n2 : Q) (st st1 : Calculator.State) :
  n2 <= n1 ->
  Calculator.setMonthsCount spread_limit (Calculator.arg_number n1) st = Some st1 ->
  Calculator.setMonthsCount spread_limit (Calculator.arg_number n2) st1
  = Calculator.setMonthsCount spread_limit (Calculator.arg_number n2) st.
Proof.
  intros Hle H1. apply Qfloor_resp_le in Hle.
  apply setMonthsCount_number_inv in H1. destruct H1 as (next1 & Hnext1 & ->).
  pose proof (months_of_pos n1) as Hm1. pose proof (months_of_pos n2) as Hm2.
  pose proof (resize_length _ _ _ _ Hm1 Hnext1) as Hlen1.
  assert (Hacc1 : growth_accepted spread_limit (Z.max 1 (Qfloor n1))
                                  (Calculator.payments st))
    by (apply resize_some; eauto).
  assert (Ha : exists a, Calculator.resize spread_limit (Z.max 1 (Qfloor n2))
                           next1 = Some a).
  { apply resize_some. unfold growth_accepted. rewrite Hlen1. lia. }
  assert (Hb : exists b, Calculator.resize spread_limit (Z.max 1 (Qfloor n2))
                           (Calculator.payments st) = Some b).
  { apply resize_some. unfold growth_accepted in *. lia. }
  destruct Ha as [a Ha]. destruct Hb as [b Hb].
  cbn [Calculator.setMonthsCount Calculator.payments Calculator.total
       Calculator.annualRatePct].
  rewrite Ha, Hb. do 2 f_equal. apply nth_error_ext. intros k.
  rewrite (resize_nth _ _ _ _ k Hm2 Ha), (resize_nth _ _ _ _ k Hm2 Hb).
  rewrite (resize_nth _ _ _ _ k Hm1 Hnext1), Hlen1.
  destruct (Nat.ltb_spec k (Z.to_nat (Z.max 1 (Qfloor n2)))) as [Hk | Hk];
    [| reflexivity].
  destruct (Nat.ltb_spec k (Z.to_nat (Z.max 1 (Qfloor n1)))); [reflexivity | lia].
Qed.

Lemma setMonthsCount_shrink_witness :
  let st := Calculator.mkState [] [] [] [Some 5; Some 6] in
  let st1 := Calculator.mkState [] [] (Js.toString 5)
                                [Some 5; Some 6; Some 0; Some 0; Some 0] in
  2 <= 5 /\
  Calculator.setMonthsCount 1000 (Calculator.arg_number 5) st = Some st1 /\
  Calculator.setMonthsCount 1000 (Calculator.arg_number 2) st1
  = Calculator.setMonthsCount 1000 (Calculator.arg_number 2) st.
Proof.
  intros st st1.
  assert (H : 2 <= 5) by (vm_compute; discriminate).
  assert (H1 : Calculator.setMonthsCount 1000 (Calculator.arg_number 5) st
               = Some st1) by reflexivity.
  split; [exact H |]. split; [exact H1 |].
  exact (setMonthsCount_shrink 1000 5 2 st st1 H H1).
Defined.

(** X17. Entries cut off by a smaller number of months do not come back:
    when setting n1 months and then n2 months both return a state, every
    entry at an index k with max(1, floor(n1)) <= k < max(1, floor(n2)) of
    the final array is 0. *)
Theorem setMonthsCount_regrow
        (spread_limit : nat) (n1 n2 : Q) (st st1 st2 : Calculator.State)
        (k : nat) :
  Calculator.setMonthsCount spread_limit (Calculator.arg_number n1) st = Some st1 ->
  Calculator.setMonthsCount spread_limit (Calculator.arg_number n2) st1 = Some st2 ->
  (Z.to_nat (Z.max 1 (Qfloor n1)) <= k < Z.to_nat (Z.max 1 (Qfloor n2)))%nat ->
  nth_error (Calculator.payments st2) k = Some (Some 0).
Proof.
  intros H1 H2 Hk.
  apply setMonthsCount_number_inv in H1. destruct H1 as (next1 & Hnext1 & ->).
  apply setMonthsCount_number_inv in H2. destruct H2 as (next2 & Hnext2 & ->).
  cbn [Calculator.payments] in *.
  pose proof (months_of_pos n1) as Hm1. pose proof (months_of_pos n2) as Hm2.
  rewrite (resize_nth _ _ _ _ k Hm2 Hnext2).
  rewrite (resize_length _ _ _ _ Hm1 Hnext1).
  destruct (Nat.ltb_spec k (Z.to_nat (Z.max 1 (Qfloor n2)))); [| lia].
  destruct (Nat.ltb_spec k (Z.to_nat (Z.max 1 (Qfloor n1)))); [lia |].
  reflexivity.
Qed.

Lemma setMonthsCount_regrow_witness :
  let st := Calculator.mkState [] [] [] [Some 5; Some 6; Some 7] in
  let st1 := Calculator.mkState [] [] (Js.toString 1) [Some 5] in
  let st2 := Calculator.mkState [] [] (Js.toString 3)
                                [Some 5; Some 0; Some 0] in
  Calculator.setMonthsCount 1000 (Calculator.arg_number 1) st = Some st1 /\
  Calculator.setMonthsCount 1000 (Calculator.arg_number 3) st1 = Some st2 /\
  (Z.to_nat (Z.max 1 (Qfloor 1)) <= 2 < Z.to_nat (Z.max 1 (Qfloor 3)))%nat /\
  nth_error (Calculator.payments st2) 2 = Some (Some 0).
Proof.
  intros st st1 st2.
  assert (H1 : Calculator.setMonthsCount 1000 (Calculator.arg_number 1) st
               = Some st1) by reflexivity.
  assert (H2 : Calculator.setMonthsCount 1000 (Calculator.arg_number 3) st1
               = Some st2) by reflexivity.
  assert (H : (Z.to_nat (Z.max 1 (Qfloor 1)) <= 2
               < Z.to_nat (Z.max 1 (Qfloor 3)))%nat) by (vm_compute; lia).
  split; [exact H1 |]. split; [exact H2 |]. split; [exact H |].
  exact (setMonthsCount_regrow 1000 1 3 st st1 st2 2 H1 H2 H).
Defined.

(** ** Text fields *)

Lemma digit_cases (c : N) :
  Js.is_digit c = true ->
  (c = 48 \/ c = 49 \/ c = 50 \/ c = 51 \/ c = 52 \/
   c = 53 \/ c = 54 \/ c = 55 \/ c = 56 \/ c = 57)%N.
Proof.
  unfold Js.is_digit. rewrite andb_true_iff, !N.leb_le. lia.
Qed.

Lemma digit_not_space (c : N) : Js.is_digit c = true -> Js.is_space c = false.
Proof.
  intros H. apply digit_cases in H.
  repeat (destruct H as [-> | H]; [reflexivity |]). now subst.
Qed.

Lemma digit_is_word (c : N) : Js.is_digit c = true -> Js.is_word c = true.
Proof. intros H. unfold Js.is_word. now rewrite H. Qed.

Lemma remove_nondigits_spaces (s : Js.JsString) :
  Js.remove_nondigits (Js.remove_spaces s) = Js.remove_nondigits s.
Proof.
  unfold Js.remove_nondigits, Js.remove_spaces.
  induction s as [| c s IH]; [reflexivity |]. cbn [filter].
  destruct (Js.is_digit c) eqn:Hd.
  - rewrite (digit_not_space c Hd). cbn [negb filter]. now rewrite Hd, IH.
  - destruct (Js.is_space c); cbn [negb filter]; [assumption |].
    now rewrite Hd.
Qed.

Lemma remove_nondigits_digits (s : Js.JsString) :
  Forall (fun c => Js.is_digit c = true) (Js.remove_nondigits s).
Proof.
  apply Forall_forall. intros c Hc. unfold Js.remove_nondigits in Hc.
  now apply filter_In in Hc.
Qed.

Lemma remove_nondigits_id (s : Js.JsString) :
  Forall (fun c => Js.is_digit c = true) s -> Js.remove_nondigits s = s.
Proof.
  unfold Js.remove_nondigits. induction 1 as [| c s Hc _ IH]; [reflexivity |].
  cbn [filter]. now rewrite Hc, IH.
Qed.

Lemma remove_nondigits_app (s1 s2 : Js.JsString) :
  Js.remove_nondigits (s1 ++ s2)
  = Js.remove_nondigits s1 ++ Js.remove_nondigits s2.
Proof. apply filter_app. Qed.

(** X18. [handleTotalChange] keeps exactly the ASCII digits of the typed
    text, in order (the pass that removes white space changes nothing): the
    new total is a string of digits, and feeding it back leaves the state as
    it is. *)
Theorem handleTotalChange_digits (value : Js.JsString) (st : Calculator.State) :
  let st' := Calculator.handleTotalChange value st in
  Calculator.total st' = filter Js.is_digit value /\
  Forall (fun c => Js.is_digit c = true) (Calculator.total st') /\
  Calculator.handleTotalChange (Calculator.total st') st' = st'.
Proof.
  intros st'. subst st'. unfold Calculator.handleTotalChange.
  cbn [Calculator.total Calculator.annualRatePct Calculator.months
       Calculator.payments].
  rewrite !remove_nondigits_spaces.
  pose proof (remove_nondigits_digits value) as Hd.
  split; [reflexivity |]. split; [assumption |].
  now rewrite (remove_nondigits_id _ Hd).
Qed.

Lemma replace_with_space_digits (s : Js.JsString) : forall before,
  Js.remove_nondigits (GroupPattern.replace_with_space before s)
  = Js.remove_nondigits s.
Proof.
  induction s as [| c s IH]; intros before;
    cbn [GroupPattern.replace_with_space]; rewrite remove_nondigits_app.
  - destruct (GroupPattern.matches before []); reflexivity.
  - unfold Js.remove_nondigits in *.
    destruct (GroupPattern.matches before (c :: s)); cbn [filter app];
      rewrite IH; reflexivity.
Qed.

Lemma formatNumber_digits (s : Js.JsString) :
  Js.remove_nondigits (Calculator.formatNumber s) = Js.remove_nondigits s.
Proof.
  destruct s as [| c s]; [reflexivity |].
  unfold Calculator.formatNumber. apply replace_with_space_digits.
Qed.

(** X19. The total field shows [formatNumber(total)]; when the user edits the
    shown text by typing [typed] at its end, the new total is the old total
    followed by the digits of [typed].  With nothing typed the total is
    unchanged: formatting and reading back is the identity on a total of
    digits. *)
Theorem formatNumber_round_trip (typed : Js.JsString) (st : Calculator.State) :
  Forall (fun c => Js.is_digit c = true) (Calculator.total st) ->
  Calculator.total
    (Calculator.handleTotalChange
       (Calculator.formatNumber (Calculator.total st) ++ typed) st)
  = Calculator.total st ++ filter Js.is_digit typed.
Proof.
  intros Hd. unfold Calculator.handleTotalChange. cbn [Calculator.total].
  rewrite remove_nondigits_spaces, remove_nondigits_app, formatNumber_digits.
  now rewrite (remove_nondigits_id _ Hd).
Qed.

Lemma formatNumber_round_trip_witness :
  let st := Calculator.mkState (Js.toString 1234567) [] [] [] in
  Forall (fun c => Js.is_digit c = true) (Calculator.total st) /\
  Calculator.total
    (Calculator.handleTotalChange
       (Calculator.formatNumber (Calculator.total st) ++ [56; 32; 120]%N) st)
  = Calculator.total st ++ filter Js.is_digit [56; 32; 120]%N.
Proof.
  intros st.
  assert (H : Forall (fun c => Js.is_digit c = true) (Calculator.total st))
    by (repeat constructor).
  split; [exact H |].
  exact (formatNumber_round_trip [56; 32; 120]%N st H).
Defined.

Lemma units_of_uint_digits (u : Decimal.uint) :
  Forall (fun c => Js.is_digit c = true) (Js.units_of_uint u).
Proof.
  induction u; cbn [Js.units_of_uint]; constructor;
    solve [reflexivity | assumption].
Qed.

(** X20. For a safe integer n, reading back the text that
    [formatMoneyInput] shows for n gives n again; in particular the empty
    text shown for 0 reads as 0. *)
Theorem parse_format_money (n : N) :
  (n <= Js.MAX_SAFE_INTEGER)%N ->
  Calculator.parseMoneyInput (Calculator.formatMoneyInput n) = n.
Proof.
  intros _. unfold Calculator.parseMoneyInput, Calculator.formatMoneyInput.
  destruct (N.eqb_spec n 0) as [-> | Hn]; [reflexivity |].
  rewrite remove_nondigits_spaces, replace_with_space_digits.
  unfold Js.toString at 1.
  rewrite (remove_nondigits_id _ (units_of_uint_digits _)).
  fold (Js.toString n). rewrite Number_digits_toString.
  destruct (N.eqb_spec n 0); [contradiction | reflexivity].
Qed.

Lemma parse_format_money_witness :
  (1234567 <= Js.MAX_SAFE_INTEGER)%N /\
  Calculator.parseMoneyInput (Calculator.formatMoneyInput 1234567) = 1234567%N.
Proof.
  assert (H : (1234567 <= Js.MAX_SAFE_INTEGER)%N) by (vm_compute; discriminate).
  split; [exact H |].
  exact (parse_format_money 1234567 H).
Defined.

(** ** Grouping of digits *)

Lemma list_ind3 {A : Type} (P : list A -> Prop) :
  P [] ->
  (forall a, P [a]) ->
  (forall a b, P [a; b]) ->
  (forall a b c l, P l -> P (a :: b :: c :: l)) ->
  forall l, P l.
Proof.
  intros H0 H1 H2 H3 l.
  enough (P l /\ (forall a, P (a :: l)) /\ (forall a b, P (a :: b :: l)))
    by tauto.
  induction l as [| c l (IH0 & IH1 & IH2)]; [auto |].
  split; [apply IH1 |]. split; [intros a; apply IH2 |].
  intros a b. now apply H3.
Qed.

Lemma lookahead_digits (s : Js.JsString) :
  Forall (fun c => Js.is_digit c = true) s ->
  GroupPattern.lookahead s
  = (0 <? length s)%nat && (length s mod 3 =? 0)%nat.
Proof.
  induction s as [| a | a b | a b c s IH] using list_ind3; intros Hd;
    try reflexivity.
  inversion Hd as [| ? ? Ha Hd1]; subst.
  inversion Hd1 as [| ? ? Hb Hd2]; subst.
  inversion Hd2 as [| ? ? Hc Hs]; subst.
  cbn [GroupPattern.lookahead]. rewrite Ha, Hb, Hc. cbn [andb].
  destruct s as [| x t]; [reflexivity |].
  inversion Hs as [| ? ? Hx _]; subst. rewrite Hx. cbn [negb orb].
  rewrite (IH Hs). cbn [length].
  replace (S (S (S (S (length t))))) with (S (length t) + 1 * 3)%nat by lia.
  rewrite Nat.Div0.mod_add. reflexivity.
Qed.

Lemma replace_with_space_grouped (s : Js.JsString) : forall c,
  Js.is_digit c = true ->
  Forall (fun c => Js.is_digit c = true) s ->
  GroupPattern.replace_with_space (Some c) s
  = (if (0 <? length s)%nat && (length s mod 3 =? 0)%nat
     then [32%N] else []) ++ grouped s.
Proof.
  induction s as [| c' s IH]; intros c Hc Hs.
  - cbn [GroupPattern.replace_with_space]. unfold GroupPattern.matches.
    cbn [GroupPattern.lookahead]. rewrite andb_false_r. reflexivity.
  - inversion Hs as [| ? ? Hc' Hs']; subst.
    cbn [GroupPattern.replace_with_space]. unfold GroupPattern.matches.
    unfold GroupPattern.not_boundary.
    rewrite (digit_is_word _ Hc), (digit_is_word _ Hc'). cbn [Bool.eqb andb].
    rewrite (lookahead_digits _ Hs). f_equal.
    rewrite (IH c' Hc' Hs'). cbn [grouped].
    destruct ((0 <? length s)%nat && (length s mod 3 =? 0)%nat); reflexivity.
Qed.

(** X21. On a string of digits [formatNumber] groups the digits in threes
    from the right: a space follows a digit exactly when the number of
    digits after it is a positive multiple of three. *)
Theorem formatNumber_grouped (s : Js.JsString) :
  Forall (fun c => Js.is_digit c = true) s ->
  Calculator.formatNumber s = grouped s.
Proof.
  intros Hs. destruct s as [| c s]; [reflexivity |].
  inversion Hs as [| ? ? Hc Hs']; subst.
  unfold Calculator.formatNumber. cbn [GroupPattern.replace_with_space].
  unfold GroupPattern.matches, GroupPattern.not_boundary.
  rewrite (digit_is_word _ Hc). cbn [Bool.eqb andb app].
  rewrite (replace_with_space_grouped s c Hc Hs'). cbn [grouped].
  destruct ((0 <? length s)%nat && (length s mod 3 =? 0)%nat); reflexivity.
Qed.

Lemma formatNumber_grouped_witness :
  Forall (fun c => Js.is_digit c = true) (Js.toString 1234567) /\
  Calculator.formatNumber (Js.toString 1234567) = grouped (Js.toString 1234567).
Proof.
  assert (H : Forall (fun c => Js.is_digit c = true) (Js.toString 1234567))
    by (repeat constructor).
  split; [exact H |].
  exact (formatNumber_grouped (Js.toString 1234567) H).
Defined.

(** ** Editing a payment and the schedule *)

Lemma rows_firstn mr ps : forall k i d,
  firstn k (rows mr i ps d) = rows mr i (firstn k ps) d.
Proof.
  induction ps as [| p ps IH]; intros k i d.
  - now rewrite !firstn_nil.
  - destruct k as [| k]; [reflexivity |]. cbn [firstn rows].
    destruct (Q_leb d 0); [reflexivity |]. cbn [firstn]. now rewrite IH.
Qed.

Lemma array_set_firstn {A : Type} (a : list (option A)) index (x : A) :
  (index <= length a)%nat ->
  firstn index (Js.array_set a index x) = firstn index a.
Proof.
  intros Hi. apply nth_error_ext. intros k. rewrite !nth_error_firstn.
  destruct (Nat.ltb_spec k index) as [Hk | Hk]; [| reflexivity].
  destruct (Nat.lt_ge_cases index (length a)) as [Hlt | Hge].
  - destruct (array_set_in_range a index x Hlt) as (_ & _ & H).
    apply H. lia.
  - destruct (array_set_past_end a index x Hge) as (_ & _ & H & _).
    apply H. lia.
Qed.

(** X22. Editing the payment of month index + 1 leaves the earlier months of
    the schedule untouched: the first [index] rows computed from the edited
    array are the first [index] rows computed from the old one. *)
Theorem edit_keeps_earlier_rows
        (total annualRate : Q) (index : nat) (value : Q) (st : Calculator.State) :
  (index <= length (Calculator.payments st))%nat ->
  firstn index
    (schedule
       (computeSchedule total annualRate
          (map Js.cell_number
             (Calculator.payments (Calculator.setPaymentAt index value st)))))
  = firstn index
      (schedule
         (computeSchedule total annualRate
            (map Js.cell_number (Calculator.payments st)))).
Proof.
  intros Hi. rewrite !schedule_rows, !rows_firstn, !firstn_map.
  cbn [Calculator.setPaymentAt Calculator.payments].
  now rewrite array_set_firstn.
Qed.

Lemma edit_keeps_earlier_rows_witness :
  let st := Calculator.mkState [] [] [] [Some 30; Some 20; Some 10] in
  (1 <= length (Calculator.payments st))%nat /\
  firstn 1
    (schedule
       (computeSchedule 100 12
          (map Js.cell_number
             (Calculator.payments (Calculator.setPaymentAt 1 90 st)))))
  = firstn 1
      (schedule
         (computeSchedule 100 12
            (map Js.cell_number (Calculator.payments st)))).
Proof.
  intros st.
  assert (H : (1 <= length (Calculator.payments st))%nat) by (cbn; lia).
  split; [exact H |].
  exact (edit_keeps_earlier_rows 100 12 1 90 st H).
Defined.

(** ** Adding months *)

Lemma for_loop_zeros mr n : forall i v,
  Vars.debt (for_loop mr i (repeat 0 n) v) == Vars.debt v /\
  Vars.payoffMonth (for_loop mr i (repeat 0 n) v) = Vars.payoffMonth v /\
  exists tail,
    Vars.schedule (for_loop mr i (repeat 0 n) v) = Vars.schedule v ++ tail.
Proof.
  induction n as [| n IH]; intros i v; cbn [repeat for_loop].
  - split; [reflexivity |]. split; [reflexivity |].
    exists []. now rewrite app_nil_r.
  - destruct (Q_leb (Vars.debt v) 0) eqn:Hd.
    + split; [reflexivity |]. split; [reflexivity |].
      exists []. now rewrite app_nil_r.
    + apply Q_leb_false in Hd.
      pose proof (zero_payment_row mr i _ Hd) as Hrow.
      destruct (IH (S i) (loop_body mr i 0 v)) as (H1 & H2 & tail & H3).
      rewrite loop_body_push in H1, H2, H3 |- *.
      cbn [push_row Vars.debt Vars.payoffMonth Vars.schedule] in H1, H2, H3.
      split; [rewrite H1; exact Hrow |]. split.
      * rewrite H2. rewrite Q_eqb_false; [reflexivity |]. lra.
      * exists (make_row mr i 0 (Vars.debt v) :: tail).
        rewrite H3, <- app_assoc. reflexivity.
Qed.

Lemma resize_grow limit m prev next :
  (Z.of_nat (length prev) <= m)%Z ->
  Calculator.resize limit m prev = Some next ->
  next = prev ++ repeat (Some 0) (Z.to_nat m - length prev).
Proof.
  intros Hle. unfold Calculator.resize.
  destruct (Z.ltb_spec (Z.of_nat (length prev)) m) as [Hgrow | Hge].
  - destruct ((m - Z.of_nat (length prev) <=? 4294967295)%Z
              && (m - Z.of_nat (length prev) <=? Z.of_nat limit)%Z);
      [| discriminate].
    intros H. injection H as <-. do 2 f_equal. lia.
  - destruct (Z.ltb_spec m (Z.of_nat (length prev))) as [? | _]; [lia |].
    intros H. injection H as <-.
    replace (Z.to_nat m - length prev)%nat with 0%nat by lia.
    cbn [repeat]. now rewrite app_nil_r.
Qed.

(** X23. When raising the number of months returns a state, the months it
    adds are months without payment and change nothing that was computed:
    the old schedule is a prefix of the new one, and the remaining debt and
    the payoff month are the same. *)
Theorem adding_months_keeps_result
        (spread_limit : nat) (total annualRate n : Q)
        (st st' : Calculator.State) :
  (Z.of_nat (length (Calculator.payments st)) <= Z.max 1 (Qfloor n))%Z ->
  Calculator.setMonthsCount spread_limit (Calculator.arg_number n) st = Some st' ->
  let before :=
    computeSchedule total annualRate
      (map Js.cell_number (Calculator.payments st)) in
  let after :=
    computeSchedule total annualRate
      (map Js.cell_number (Calculator.payments st')) in
  remainingDebt after == remainingDebt before /\
  payoffMonth after = payoffMonth before /\
  exists tail, schedule after = schedule before ++ tail.
Proof.
  intros Hle Hset before after. subst before after.
  apply setMonthsCount_number_inv in Hset. destruct Hset as (next & Hnext & ->).
  cbn [Calculator.payments].
  rewrite (resize_grow _ _ _ _ Hle Hnext), map_app, map_repeat.
  cbn [Js.cell_number].
  unfold computeSchedule. rewrite for_loop_app.
  cbn [result_of remainingDebt payoffMonth schedule].
  apply for_loop_zeros.
Qed.

Lemma adding_months_keeps_result_witness :
  let st := Calculator.mkState [] [] [] [Some 30; Some 20] in
  let st' := Calculator.mkState [] [] (Js.toString 4)
                                [Some 30; Some 20; Some 0; Some 0] in
  (Z.of_nat (length (Calculator.payments st)) <= Z.max 1 (Qfloor 4))%Z /\
  Calculator.setMonthsCount 1000 (Calculator.arg_number 4) st = Some st' /\
  let before :=
    computeSchedule 100 12 (map Js.cell_number (Calculator.payments st)) in
  let after :=
    computeSchedule 100 12 (map Js.cell_number (Calculator.payments st')) in
  remainingDebt after == remainingDebt before /\
  payoffMonth after = payoffMonth before /\
  exists tail, schedule after = schedule before ++ tail.
Proof.
  intros st st'.
  assert (H : (Z.of_nat (length (Calculator.payments st))
               <= Z.max 1 (Qfloor 4))%Z) by (vm_compute; discriminate).
  assert (Hset : Calculator.setMonthsCount 1000 (Calculator.arg_number 4) st
                 = Some st') by reflexivity.
  split; [exact H |]. split; [exact Hset |].
  exact (adding_months_keeps_result 1000 100 12 4 st st' H Hset).
Defined.
